(** * contactregister.helpers: a shallow embedding and its properties

    The functions of [contactregister/helpers.py] that the properties are
    about are embedded one by one: [get_module_files],
    [get_option_selection], [QueryFilter.__init__], [parse_query_filters]
    and [try_create_dir], with the exception classes of the module.  Python
    values are modelled as follows.

    - [str] is a list of Unicode code points ([N]); the methods the module
      calls ([strip], [split], [startswith]) are written out below.
    - a function that may raise returns a [result]; the exception raised is
      a value of [exc].
    - the console is a record holding the lines still to be read on standard
      input and the trace of what was shown on standard output; [input] on
      an exhausted input raises [EOFError].  Python's [int] is a parameter
      of [get_option_selection].
    - the file system is a finite map from paths to entry kinds, a path
      being the list of its components; [os.mkdir] and [os.makedirs] are
      functions on it. *)

From Stdlib Require Import ZArith NArith String Ascii.
From stdpp Require Import base option list gmap pretty.

Local Open Scope Z_scope.

(** ** Python strings *)

Definition char := N.
Definition str := list char.

(** [py "abc"] is the Python literal "abc" (ASCII literals only). *)
Definition py (s : string) : str :=
  List.map N_of_ascii (list_ascii_of_string s).

(** [str.isspace] on one code point: the table of CPython's
    [_PyUnicode_IsWhitespace]. *)
Definition isspace (c : char) : bool :=
  ((9 <=? c) && (c <=? 13) || (28 <=? c) && (c <=? 32)
   || (c =? 133) || (c =? 160) || (c =? 5760)
   || (8192 <=? c) && (c <=? 8202)
   || (c =? 8232) || (c =? 8233) || (c =? 8239) || (c =? 8287)
   || (c =? 12288))%N.

(** Membership of a code point in the [chars] argument of [str.strip]. *)
Definition char_in (chars : str) (c : char) : bool :=
  existsb (N.eqb c) chars.

Fixpoint lstrip_by (p : char -> bool) (s : str) : str :=
  match s with
  | [] => []
  | c :: s' => if p c then lstrip_by p s' else s
  end.

Definition rstrip_by (p : char -> bool) (s : str) : str :=
  rev (lstrip_by p (rev s)).

Definition strip_by (p : char -> bool) (s : str) : str :=
  rstrip_by p (lstrip_by p s).

(** [s.strip()] *)
Definition strip (s : str) : str := strip_by isspace s.

(** [s.strip(chars)]: removes from both ends every code point that occurs
    in [chars]. *)
Definition strip_chars (s chars : str) : str := strip_by (char_in chars) s.

(** [s.startswith(prefix)] *)
Fixpoint startswith (s prefix : str) : bool :=
  match prefix, s with
  | [], _ => true
  | _ :: _, [] => false
  | p :: prefix', c :: s' => (c =? p)%N && startswith s' prefix'
  end.

(** Puts [c] in front of the first part of a split. *)
Definition push_char (c : char) (parts : list str) : list str :=
  match parts with
  | [] => [[c]]
  | part :: parts' => (c :: part) :: parts'
  end.

(** [s.split(sep, maxsplit)] for a separator [sep] of one code point, as
    the module uses it ([","] and ["="]).  A negative [maxsplit] (Python's
    default is [-1]) puts no limit on the number of splits. *)
Fixpoint split (sep : char) (maxsplit : Z) (s : str) : list str :=
  match s with
  | [] => [[]]
  | c :: s' =>
      if (c =? sep)%N && negb (maxsplit =? 0)
      then [] :: split sep (maxsplit - 1) s'
      else push_char c (split sep maxsplit s')
  end.

(** [sep.join(parts)] for a separator of one code point. *)
Fixpoint join (sep : char) (parts : list str) : str :=
  match parts with
  | [] => []
  | [part] => part
  | part :: parts' => part ++ sep :: join sep parts'
  end.

Definition comma : char := 44%N.
Definition equals : char := 61%N.

(** ** Exceptions and results *)

Definition errno_t := Z.
Definition ENOENT : errno_t := 2.
Definition EACCES : errno_t := 13.
Definition EEXIST : errno_t := 17.
Definition ENOTDIR : errno_t := 20.

(** The exceptions the module can raise or let through, the three classes
    it declares included. *)
Inductive exc : Type :=
  | IndexError
  | ValueError
  | EOFError
  | OSError (errno : errno_t)
  | UnknownQueryField (field_name : str)
  | MalformedQuery (query : str)
  | NonexistentFile (filepath : str).

Inductive result (A : Type) : Type :=
  | Ok (a : A)
  | Raise (e : exc).
Arguments Ok {A} a.
Arguments Raise {A} e.

#[global] Instance result_ret : MRet result := fun A a => Ok a.
#[global] Instance result_bind : MBind result := fun A B f m =>
  match m with
  | Ok a => f a
  | Raise e => Raise e
  end.

(** [l[i]] on a Python list: a negative index counts from the end, an
    index out of range raises [IndexError]. *)
Definition getitem {A} (l : list A) (i : Z) : result A :=
  let n := Z.of_nat (length l) in
  let j := if i <? 0 then i + n else i in
  if (0 <=? j) && (j <? n)
  then match l !! Z.to_nat j with
       | Some x => Ok x
       | None => Raise IndexError
       end
  else Raise IndexError.

(** ** QueryFilter *)

Record QueryFilter : Type := mkQueryFilter {
  field : str;
  pattern : str
}.

(** [QueryFilter.__init__] *)
Definition QueryFilter_init (field pattern : str) : QueryFilter :=
  {| field := strip field; pattern := strip pattern |}.

(** The body of the [for] loop of [parse_query_filters], over the list of
    split segments; [filters] is the list built so far. *)
Fixpoint parse_query_filters_loop
    (parts : list (list str)) (filters : list QueryFilter)
    : result (list QueryFilter) :=
  match parts with
  | [] => Ok filters
  | query_filter :: parts' =>
      f ← getitem query_filter 0;
      p ← getitem query_filter 1;
      parse_query_filters_loop parts' (filters ++ [QueryFilter_init f p])
  end.

Definition parse_query_filters (query : str) : result (list QueryFilter) :=
  parse_query_filters_loop
    (List.map (split equals 1) (split comma (-1) query)) [].

(** ** The console and get_option_selection *)

(** What the program did on standard output: it showed the prompt of an
    [input] call, or printed a line. *)
Inductive event : Type :=
  | Prompted (prompt : str)
  | Printed (line : str).

(** [stdin] holds the lines not read yet; [input] raises [EOFError] once
    it is empty. *)
Record console : Type := mkConsole {
  stdin : list str;
  stdout : list event
}.

(** [input(prompt)]: shows the prompt and reads one line. *)
Definition input (prompt : str) (c : console) : result str * console :=
  match stdin c with
  | [] => (Raise EOFError, mkConsole [] (stdout c ++ [Prompted prompt]))
  | line :: lines => (Ok line, mkConsole lines (stdout c ++ [Prompted prompt]))
  end.

(** [print(line)] *)
Definition print (line : str) (c : console) : console :=
  mkConsole (stdin c) (stdout c ++ [Printed line]).

Definition out_of_range_message : str :=
  py "Input value is out of range, try again".
Definition not_an_integer_message : str :=
  py "Input value not a valid integer, try again".

Section OptionSelection.

(** Python's [int] on a string: [None] stands for [ValueError]. *)
Variable int : str -> option Z.

(** The [while selected_option is None] loop: one iteration per line
    read.  The result is the value of [selected_option] when the loop is
    left, or the exception that ended it. *)
Fixpoint get_option_selection_loop
    (options : list str) (prompt : str)
    (lines : list str) (out : list event) : result Z * console :=
  match lines with
  | [] => (Raise EOFError, mkConsole [] (out ++ [Prompted prompt]))
  | line :: lines' =>
      let out := out ++ [Prompted prompt] in
      match int (strip line) with
      | Some selected_option =>
          if negb ((-1 <? selected_option)
                   && (selected_option <? Z.of_nat (length options)))
          then get_option_selection_loop options prompt lines'
                 (out ++ [Printed out_of_range_message])
          else (Ok selected_option, mkConsole lines' out)
      | None =>
          get_option_selection_loop options prompt lines'
            (out ++ [Printed not_an_integer_message])
      end
  end.

Definition get_option_selection
    (options : list str) (prompt : str) (c : console)
    : result str * console :=
  match get_option_selection_loop options prompt (stdin c) (stdout c) with
  | (Ok selected_option, c') => (getitem options selected_option, c')
  | (Raise e, c') => (Raise e, c')
  end.

(** A line is accepted when it trims and parses to an index of
    [options]. *)
Definition accepted (options : list str) (line : str) : Prop :=
  exists i, int (strip line) = Some i /\ 0 <= i < Z.of_nat (length options).

(** What the loop prints after reading a line it does not accept. *)
Definition rejection_message (line : str) : str :=
  match int (strip line) with
  | Some _ => out_of_range_message
  | None => not_an_integer_message
  end.

(** The console trace of the lines read and not accepted: each was asked
    for with the prompt and answered with its message. *)
Definition rejections (prompt : str) (lines : list str) : list event :=
  flat_map (fun line => [Prompted prompt; Printed (rejection_message line)])
    lines.

End OptionSelection.

(** [int] on strings of ASCII decimal digits with an optional sign, the
    instance used in the examples. *)
Definition digit_value (c : char) : option Z :=
  if ((48 <=? c) && (c <=? 57))%N then Some (Z.of_N c - 48) else None.

Fixpoint digits_value (acc : Z) (s : str) : option Z :=
  match s with
  | [] => Some acc
  | c :: s' =>
      match digit_value c with
      | Some d => digits_value (10 * acc + d) s'
      | None => None
      end
  end.

Definition ascii_int (s : str) : option Z :=
  match s with
  | [] => None
  | c :: s' =>
      if (c =? 45)%N then
        match s' with [] => None | _ => Z.opp <$> digits_value 0 s' end
      else if (c =? 43)%N then
        match s' with [] => None | _ => digits_value 0 s' end
      else digits_value 0 s
  end.

(** ** The file system, os.makedirs and os.listdir *)

(** A path is given by its components, normalised (no empty, [.] or [..]
    component) and counted from the root, the innermost component first:
    [/a/b/c] is [[c; b; a]] and the root is [[]]. *)
Abbreviation path := (list str).

Inductive kind : Type := Dir | File.

#[global] Instance kind_eq_dec : EqDecision kind.
Proof. solve_decision. Defined.

(** [entries] maps the paths that exist to their kind (the root always
    exists and is a directory); [readonly] holds the directories in which
    nothing can be created. *)
Record fs : Type := mkFs {
  entries : gmap path kind;
  readonly : gset path
}.

(** Path resolution as [stat] does it: every component above the last must
    be a directory. *)
Fixpoint stat (s : fs) (p : path) : errno_t + kind :=
  match p with
  | [] => inr Dir
  | _ :: parent =>
      match stat s parent with
      | inr Dir =>
          match entries s !! p with
          | Some k => inr k
          | None => inl ENOENT
          end
      | inr File => inl ENOTDIR
      | inl e => inl e
      end
  end.

(** [os.path.exists] *)
Definition os_path_exists (s : fs) (p : path) : bool :=
  match stat s p with inr _ => true | inl _ => false end.

(** [os.path.isdir] *)
Definition os_path_isdir (s : fs) (p : path) : bool :=
  match stat s p with inr Dir => true | _ => false end.

(** [os.mkdir] *)
Definition os_mkdir (p : path) (s : fs) : result unit * fs :=
  match p with
  | [] => (Raise (OSError EEXIST), s)
  | _ :: parent =>
      match stat s parent with
      | inr Dir =>
          match entries s !! p with
          | Some _ => (Raise (OSError EEXIST), s)
          | None =>
              if decide (parent ∈ readonly s)
              then (Raise (OSError EACCES), s)
              else (Ok (), mkFs (<[p := Dir]> (entries s)) (readonly s))
          end
      | inr File => (Raise (OSError ENOTDIR), s)
      | inl e => (Raise (OSError e), s)
      end
  end.

(** [os.makedirs(name)] with [exist_ok=False], after CPython's [os.py]:
    when the parent [head] does not exist it is made first, a
    [FileExistsError] of that recursive call is passed over, and then
    [mkdir(name)] runs, whose errors are raised again. *)
Fixpoint os_makedirs (name : path) (s : fs) : result unit * fs :=
  match name with
  | [] => os_mkdir name s
  | _ :: head =>
      if os_path_exists s head then os_mkdir name s
      else
        match os_makedirs head s with
        | (Ok _, s') => os_mkdir name s'
        | (Raise (OSError e), s') =>
            if e =? EEXIST then os_mkdir name s' else (Raise (OSError e), s')
        | (Raise e, s') => (Raise e, s')
        end
  end.

(** [os.listdir]: the names of the entries of a directory. *)
Definition os_listdir (s : fs) (d : path) : result (list str) :=
  match stat s d with
  | inr Dir =>
      Ok (omap (fun e : path * kind =>
                  match e.1 with
                  | name :: parent =>
                      if decide (parent = d) then Some name else None
                  | [] => None
                  end)
               (map_to_list (entries s)))
  | inr File => Raise (OSError ENOTDIR)
  | inl e => Raise (OSError e)
  end.

(** [os.path.realpath]: there are no symbolic links, a normalised path is
    its own real path. *)
Definition os_path_realpath (s : fs) (p : path) : path := p.

(** [os.path.dirname] *)
Definition os_path_dirname (p : path) : path := tail p.

(** ** get_module_files and try_create_dir *)

Definition get_module_files (s : fs) (file : path) : result (list str) :=
  let dir_path := os_path_dirname (os_path_realpath s file) in
  names ← os_listdir s dir_path;
  let module_files :=
    List.filter (fun x => negb (startswith x (py "__"))) names in
  Ok (List.map (fun filename => strip_chars filename (py ".py")) module_files).

Definition try_create_dir (directory_path : path) (s : fs)
    : result unit * fs :=
  match os_makedirs directory_path s with
  | (Raise (OSError errno), s') =>
      if negb (errno =? EEXIST) then (Raise (OSError errno), s')
      else (Ok (), s')
  | outcome => outcome
  end.

(** Paths and file systems of the examples. *)
Definition mkpath (components : list string) : path :=
  rev (List.map py components).

Definition mkfs (l : list (list string * kind)) : fs :=
  mkFs (list_to_map (List.map (fun e => (mkpath e.1, e.2)) l)) ∅.

(** A package directory with a regular file [notes] next to it. *)
Definition example_fs : fs :=
  mkfs [ (["pkg"], Dir);
         (["pkg"; "__init__.py"], File);
         (["pkg"; "foo.py"], File);
         (["pkg"; "bar.py"], File);
         (["notes"], File) ]%string.

(** A package with a module [happy.py]. *)
Definition happy_fs : fs :=
  mkfs [ (["pkg"], Dir);
         (["pkg"; "__init__.py"], File);
         (["pkg"; "happy.py"], File) ]%string.

(** ** Notions used in the statements *)

(** Neither the path nor a directory above it is a regular file. *)
Fixpoint no_file_on (s : fs) (p : path) : bool :=
  negb (bool_decide (entries s !! p = Some File))
  && match p with
     | [] => true
     | _ :: parent => no_file_on s parent
     end.

(** The name [stem.py] of a module file. *)
Definition module_file (stem : str) : str := stem ++ py ".py".


(** No whitespace at either end. *)
Definition trimmed (s : str) : bool :=
  match head s with Some c => negb (isspace c) | None => true end
  && match last s with Some c => negb (isspace c) | None => true end.

(** The segment [field=pattern] of a query. *)
Definition segment (fp : str * str) : str := fp.1 ++ equals :: fp.2.

(** A segment [f=p] of a well-formed query: the field [f] is the text
    before the first ['='] of the segment, so it holds none, and the pattern
    [p] is the text after it; both are non-empty and hold no comma. *)
Definition well_formed (fp : str * str) : Prop :=
  fp.1 <> [] /\ fp.2 <> [] /\
  (comma ∉ fp.1) /\ (comma ∉ fp.2) /\ (equals ∉ fp.1).

(** A segment [f=p] that is cut at its ['=']: no comma in it and no ['=']
    in [f]. *)
Definition cut_at_first (fp : str * str) : Prop :=
  (comma ∉ fp.1) /\ (comma ∉ fp.2) /\ (equals ∉ fp.1).

(** The segments of a query: the text between its commas. *)
Definition segments (query : str) : list str := split comma (-1) query.

(** ** display_command_options *)

(** [str(i)] for an integer [i >= 0]: its decimal digits. *)
Definition str_of_nat (i : nat) : str := py (pretty i).

(** The line [f'{i}: {options[i]}']. *)
Definition option_line (i : nat) (label : str) : str :=
  str_of_nat i ++ py ": " ++ label.

(** The comprehension over [range(0, len(options))]: one [print] per index,
    the option being fetched by [options[i]]. *)
Fixpoint display_command_options_loop
    (options : list str) (indices : list nat) (c : console)
    : result unit * console :=
  match indices with
  | [] => (Ok (), c)
  | i :: indices' =>
      match getitem options (Z.of_nat i) with
      | Ok label =>
          display_command_options_loop options indices'
            (print (option_line i label) c)
      | Raise e => (Raise e, c)
      end
  end.

Definition display_command_options
    (options : list str) (title : str) (c : console) : result unit * console :=
  display_command_options_loop options (seq 0 (length options))
    (print title c).

(** The default values of [title] and [prompt]. *)
Definition default_title : str := py "Options:".
Definition default_prompt : str := py "Option: ".

(** ** Further notions used in the statements *)

(** [s.count(c)] for one code point. *)
Definition count (c : char) (s : str) : nat :=
  length (List.filter (N.eqb c) s).

(** Nothing but whitespace. *)
Definition whitespace (s : str) : Prop := Forall (fun c => isspace c = true) s.

(** A stem that neither starts nor ends with one of [.], [p], [y]. *)
Definition clean_stem (stem : str) : bool :=
  match head stem, last stem with
  | Some a, Some b =>
      negb (char_in (py ".py") a) && negb (char_in (py ".py") b)
  | _, _ => false
  end.

(** The console after [get_option_selection] when every pending line is
    replaced by its trimmed form. *)
Definition strip_pending (c : console) : console :=
  mkConsole (map strip (stdin c)) (stdout c).

(** * Properties *)

(** ** Strings *)

Lemma push_char_cons c part parts :
  push_char c (part :: parts) = (c :: part) :: parts.
Proof. reflexivity. Qed.

Lemma split_not_nil sep m s : split sep m s <> [].
Proof.
  revert m. induction s as [|c s IH]; intros m; simpl; [done|].
  destruct ((c =? sep)%N && negb (m =? 0)); [done|].
  specialize (IH m). destruct (split sep m s); [done|]. done.
Qed.

Lemma split_0 sep s : split sep 0 s = [s].
Proof.
  induction s as [|c s IH]; simpl; [done|].
  rewrite andb_false_r, IH. reflexivity.
Qed.

(** A part without separator in front of [b] joins the first part of the
    split of [b]. *)
Lemma split_app_no_sep sep m a b :
  sep ∉ a ->
  split sep m (a ++ b) =
    match split sep m b with
    | part :: parts => (a ++ part) :: parts
    | [] => [a]
    end.
Proof.
  induction a as [|c a IH]; intros Ha; simpl.
  - destruct (split sep m b) eqn:E; [|done].
    by apply split_not_nil in E.
  - apply not_elem_of_cons in Ha as [Hc Ha].
    destruct (N.eqb_spec c sep) as [->|_]; [done|]. simpl.
    rewrite IH by done.
    destruct (split sep m b); reflexivity.
Qed.

Lemma split_no_sep sep m s : sep ∉ s -> split sep m s = [s].
Proof.
  intros Hs. rewrite <- (app_nil_r s) at 1.
  rewrite split_app_no_sep by done. simpl. by rewrite app_nil_r.
Qed.

Lemma split_at_sep sep m a b :
  sep ∉ a -> m <> 0 ->
  split sep m (a ++ sep :: b) = a :: split sep (m - 1) b.
Proof.
  intros Ha Hm. rewrite split_app_no_sep by done. simpl.
  rewrite N.eqb_refl. destruct (Z.eqb_spec m 0); [done|]. simpl.
  by rewrite app_nil_r.
Qed.

(** [split("=", 1)]: at most one split, at the first ['=']. *)
Lemma split_once_at_first sep a b :
  sep ∉ a -> split sep 1 (a ++ sep :: b) = [a; b].
Proof.
  intros Ha. rewrite split_at_sep by done. simpl. by rewrite split_0.
Qed.

Lemma join_cons sep part parts :
  parts <> [] -> join sep (part :: parts) = part ++ sep :: join sep parts.
Proof. destruct parts; done. Qed.

Lemma split_join sep m parts :
  m < 0 -> parts <> [] -> Forall (fun part => sep ∉ part) parts ->
  split sep m (join sep parts) = parts.
Proof.
  intros Hm Hne Hall. revert m Hm.
  induction Hall as [|part parts Hpart Hall IH]; intros m Hm; [done|].
  destruct parts as [|part' parts].
  - simpl. by apply split_no_sep.
  - rewrite join_cons by done. rewrite split_at_sep by (done || lia).
    f_equal. apply IH; [done | lia].
Qed.

Lemma join_push_char sep c parts :
  parts <> [] -> join sep (push_char c parts) = c :: join sep parts.
Proof. destruct parts as [|part [|part' parts]]; done. Qed.

Lemma join_split sep m s : join sep (split sep m s) = s.
Proof.
  revert m. induction s as [|c s IH]; intros m; [done|].
  cbn [split].
  destruct (N.eqb_spec c sep) as [->|_]; [destruct (m =? 0)|]; cbn [andb negb].
  - rewrite join_push_char by apply split_not_nil. by rewrite IH.
  - rewrite join_cons by apply split_not_nil. by rewrite IH.
  - rewrite join_push_char by apply split_not_nil. by rewrite IH.
Qed.

Lemma split_parts_no_sep sep m s :
  m < 0 -> Forall (fun part => sep ∉ part) (split sep m s).
Proof.
  intros Hm. revert m Hm.
  induction s as [|c s IH]; intros m Hm; simpl.
  - constructor; [apply not_elem_of_nil | constructor].
  - destruct (N.eqb_spec c sep) as [->|Hc]; simpl.
    + destruct (Z.eqb_spec m 0); [lia|]. simpl.
      constructor; [apply not_elem_of_nil | apply IH; lia].
    + specialize (IH m Hm). destruct (split sep m s) as [|part parts].
      * constructor; [|constructor].
        intros [->|H]%elem_of_cons; [done | by apply not_elem_of_nil in H].
      * simpl. inversion IH; subst. constructor; [|done].
        intros [->|H]%elem_of_cons; done.
Qed.

(** Stripping: what is left starts and ends outside of [p]. *)
Lemma lstrip_by_suffix p s : exists dropped, s = dropped ++ lstrip_by p s.
Proof.
  induction s as [|c s [d IH]]; simpl.
  - by exists [].
  - destruct (p c).
    + exists (c :: d). simpl. by f_equal.
    + by exists [].
Qed.

Lemma lstrip_by_head p s c : head (lstrip_by p s) = Some c -> p c = false.
Proof.
  induction s as [|x s IH]; simpl; [done|].
  destruct (p x) eqn:E; [done|]. simpl. by intros [= <-].
Qed.

Lemma rstrip_by_prefix p s : exists dropped, s = rstrip_by p s ++ dropped.
Proof.
  unfold rstrip_by. destruct (lstrip_by_suffix p (rev s)) as [d Hd].
  exists (rev d). rewrite <- rev_app_distr, <- Hd. by rewrite rev_involutive.
Qed.

Lemma last_rev {A} (l : list A) : last (rev l) = head l.
Proof. destruct l as [|x l]; [done|]. simpl. apply last_snoc. Qed.

Lemma head_rev {A} (l : list A) : head (rev l) = last l.
Proof. by rewrite <- last_rev, rev_involutive. Qed.

Lemma rstrip_by_last p s c : last (rstrip_by p s) = Some c -> p c = false.
Proof.
  unfold rstrip_by. rewrite last_rev. apply lstrip_by_head.
Qed.

Lemma rstrip_by_head p s c :
  head (rstrip_by p s) = Some c -> head s = Some c.
Proof.
  destruct (rstrip_by_prefix p s) as [d Hd]. intros H.
  rewrite Hd. destruct (rstrip_by p s); [done|]. done.
Qed.

Lemma strip_by_head p s c : head (strip_by p s) = Some c -> p c = false.
Proof.
  unfold strip_by. intros H%rstrip_by_head. by apply lstrip_by_head in H.
Qed.

Lemma strip_by_last p s c : last (strip_by p s) = Some c -> p c = false.
Proof. apply rstrip_by_last. Qed.

Lemma trimmed_strip s : trimmed (strip s) = true.
Proof.
  unfold trimmed, strip. apply andb_true_iff. split.
  - destruct (head _) eqn:E; [|done]. by rewrite (strip_by_head _ _ _ E).
  - destruct (last _) eqn:E; [|done]. by rewrite (strip_by_last _ _ _ E).
Qed.

Lemma strip_nil : strip [] = [].
Proof. reflexivity. Qed.

(** ** parse_query_filters *)

Lemma parse_query_filters_loop_step f rest parts filters :
  equals ∉ f ->
  parse_query_filters_loop (split equals 1 (f ++ equals :: rest) :: parts)
    filters
  = parse_query_filters_loop parts (filters ++ [QueryFilter_init f rest]).
Proof. intros Hf. by rewrite split_once_at_first. Qed.

Lemma parse_query_filters_loop_fault seg parts filters :
  equals ∉ seg ->
  parse_query_filters_loop (split equals 1 seg :: parts) filters
  = Raise IndexError.
Proof. intros Hseg. by rewrite split_no_sep. Qed.

Lemma parse_query_filters_loop_raise segs filters :
  Exists (fun seg => equals ∉ seg) segs ->
  parse_query_filters_loop (map (split equals 1) segs) filters
  = Raise IndexError.
Proof.
  intros Hex. revert filters.
  induction segs as [|seg segs IH]; intros filters; [by inversion Hex|].
  destruct (decide (equals ∈ seg)) as [Hin|Hout].
  - apply list_elem_of_split_l in Hin as (f & rest & -> & Hf).
    cbn [map]. rewrite parse_query_filters_loop_step by done.
    apply IH. inversion Hex as [? ? Hhd|]; subst; [|done].
    exfalso. apply Hhd. set_solver.
  - cbn [map]. by apply parse_query_filters_loop_fault.
Qed.

Lemma parse_query_filters_loop_pairs pairs filters :
  Forall cut_at_first pairs ->
  parse_query_filters_loop (map (split equals 1) (map segment pairs)) filters
  = Ok (filters ++ map (fun fp => QueryFilter_init fp.1 fp.2) pairs).
Proof.
  intros Hall. revert filters.
  induction Hall as [|[f p] pairs (_ & _ & Hf) _ IH]; intros filters.
  - simpl. by rewrite app_nil_r.
  - cbn [map]. unfold segment at 1. cbn [fst snd] in *.
    rewrite parse_query_filters_loop_step by done.
    rewrite IH. by rewrite <- app_assoc.
Qed.

Lemma segment_no_comma fp : cut_at_first fp -> comma ∉ segment fp.
Proof.
  intros (Hf & Hp & _). unfold segment.
  rewrite elem_of_app, elem_of_cons. intros [?|[?|?]]; done.
Qed.

Lemma segments_join pairs :
  pairs <> [] -> Forall cut_at_first pairs ->
  segments (join comma (map segment pairs)) = map segment pairs.
Proof.
  intros Hne Hall. apply split_join; [lia | by destruct pairs |].
  clear Hne. induction Hall; simpl; constructor;
    [by apply segment_no_comma | done].
Qed.

(** A query made of segments that are cut at their first ['='] parses to
    one filter per segment, in order. *)
Lemma parse_query_filters_pairs pairs :
  pairs <> [] -> Forall cut_at_first pairs ->
  parse_query_filters (join comma (map segment pairs))
  = Ok (map (fun fp => QueryFilter_init fp.1 fp.2) pairs).
Proof.
  intros Hne Hall. unfold parse_query_filters.
  fold (segments (join comma (map segment pairs))).
  rewrite segments_join by done.
  by rewrite parse_query_filters_loop_pairs.
Qed.

Lemma parse_query_filters_loop_invariant (P : QueryFilter -> Prop)
    parts filters filters' :
  (forall f p, P (QueryFilter_init f p)) ->
  Forall P filters ->
  parse_query_filters_loop parts filters = Ok filters' ->
  Forall P filters'.
Proof.
  intros Hinit. revert filters.
  induction parts as [|part parts IH]; intros filters Hacc; simpl.
  - by intros [= <-].
  - destruct (getitem part 0) as [f|]; [|done]. simpl.
    destruct (getitem part 1) as [p|]; [|done]. simpl.
    apply IH. apply Forall_app. split; [done|].
    constructor; [apply Hinit | constructor].
Qed.

(** Every query whose segments all hold an ['='] is made of segments cut
    at their first ['=']: the statements below, over lists of pairs, cover
    all of them. *)
Lemma query_segments query :
  Forall (fun seg => equals ∈ seg) (segments query) ->
  exists pairs,
    pairs <> [] /\ Forall cut_at_first pairs
    /\ query = join comma (map segment pairs).
Proof.
  intros Hall.
  assert (Hcut : forall segs,
    Forall (fun seg => comma ∉ seg) segs ->
    Forall (fun seg => equals ∈ seg) segs ->
    exists pairs, Forall cut_at_first pairs /\ segs = map segment pairs).
  { induction segs as [|seg segs IH]; intros Hcomma Heq; [by exists []|].
    inversion Hcomma as [|? ? Hseg Hcomma']; subst.
    inversion Heq as [|? ? Hin Heq']; subst.
    destruct (IH Hcomma' Heq') as (pairs & Hpairs & ->).
    apply list_elem_of_split_l in Hin as (f & rest & -> & Hf).
    exists ((f, rest) :: pairs). split; [|done].
    constructor; [|done]. repeat split; [| |done]; cbn [fst snd];
      intros Hc; apply Hseg; apply elem_of_app;
      [by left | right; by constructor]. }
  destruct (Hcut (segments query)) as (pairs & Hpairs & Hsegs);
    [by apply split_parts_no_sep | done |].
  exists pairs. split; [|split; [done|]].
  - intros ->. by apply (split_not_nil comma (-1) query).
  - rewrite <- Hsegs. symmetry. apply join_split.
Qed.

(** The parser returns filters exactly when every segment holds an
    ['=']; otherwise it ends with IndexError. *)
Lemma parse_query_filters_outcome query :
  (Forall (fun seg => equals ∈ seg) (segments query)
   /\ exists filters, parse_query_filters query = Ok filters)
  \/ (Exists (fun seg => equals ∉ seg) (segments query)
      /\ parse_query_filters query = Raise IndexError).
Proof.
  destruct (decide (Forall (fun seg => equals ∈ seg) (segments query)))
    as [Hall|Hex].
  - left. split; [done|].
    destruct (query_segments query Hall) as (pairs & Hne & Hpairs & ->).
    eexists. by apply parse_query_filters_pairs.
  - right. apply not_Forall_Exists in Hex; [|apply _].
    split; [done|]. by apply parse_query_filters_loop_raise.
Qed.

(** C1, as the code has it: when some segment of the query holds no ['=']
    (the single empty segment of the empty query included), indexing the
    second part of its split faults, and parse_query_filters raises
    IndexError, which carries no query string. *)
Theorem parse_query_filters_missing_equals query :
  (exists seg, seg ∈ segments query /\ equals ∉ seg) ->
  parse_query_filters query = Raise IndexError.
Proof.
  intros (seg & Hin & Hseg). apply parse_query_filters_loop_raise.
  apply Exists_exists. eauto.
Qed.

Lemma parse_query_filters_missing_equals_witness :
  parse_query_filters (py "") = Raise IndexError
  /\ parse_query_filters (py "name=Bob,fieldonly") = Raise IndexError.
Proof.
  split; apply parse_query_filters_missing_equals.
  - exists []. split; compute_done.
  - exists (py "fieldonly"). split; compute_done.
Defined.

(** C1, as the claim has it, fails: for the query ["fieldonly"], whose only
    segment holds no ['='], what is raised is not MalformedQuery with the
    query in it. *)
Lemma parse_query_filters_not_MalformedQuery :
  (exists seg, seg ∈ segments (py "fieldonly") /\ equals ∉ seg)
  /\ parse_query_filters (py "fieldonly")
     <> Raise (MalformedQuery (py "fieldonly")).
Proof.
  split.
  - exists (py "fieldonly"). split; compute_done.
  - vm_compute. discriminate.
Qed.

Lemma lookup_map {A B} (f : A -> B) (l : list A) (i : nat) :
  map f l !! i = f <$> (l !! i).
Proof. apply list_lookup_fmap. Qed.

Lemma well_formed_cut_at_first fp : well_formed fp -> cut_at_first fp.
Proof. intros (_ & _ & ? & ? & ?). done. Qed.

(** C3: a well-formed query [f1=p1,...,fn=pn] (n >= 1, every field and
    pattern non-empty and without comma, every field ending at the first
    ['='] of its segment) parses to exactly n filters, in the order of the
    segments, the i-th one holding the trimmed [fi] and the trimmed [pi]. *)
Theorem parse_query_filters_well_formed (pairs : list (str * str)) :
  pairs <> [] -> Forall well_formed pairs ->
  parse_query_filters (join comma (map segment pairs))
  = Ok (map (fun fp => {| field := strip fp.1; pattern := strip fp.2 |})
          pairs).
Proof.
  intros Hne Hall. apply parse_query_filters_pairs; [done|].
  eapply Forall_impl; [exact Hall | apply well_formed_cut_at_first].
Qed.

Lemma parse_query_filters_well_formed_witness :
  parse_query_filters (py " name = Bob ,age=42")
  = Ok [ {| field := py "name"; pattern := py "Bob" |};
         {| field := py "age"; pattern := py "42" |} ].
Proof.
  apply (parse_query_filters_well_formed
           [(py " name ", py " Bob "); (py "age", py "42")]).
  - discriminate.
  - repeat constructor; compute_done.
Defined.

(** C4, as the claim has it, fails: in ["field= a=b"] the text after the
    first ['='] is [" a=b"], and the pattern of the filter is not that
    text. *)
Lemma pattern_is_not_the_untrimmed_remainder :
  py "field= a=b" = segment (py "field", py " a=b")
  /\ (equals ∉ py "field")
  /\ (equals ∈ py " a=b")
  /\ exists q, parse_query_filters (py "field= a=b") = Ok [q]
               /\ pattern q <> py " a=b".
Proof.
  split; [reflexivity|]. split; [compute_done|]. split; [compute_done|].
  eexists. split; [vm_compute; reflexivity | compute_done].
Qed.

(** C4, amended: a segment [f=rest] whose pattern part [rest] holds
    further ['='] is split at its first ['='] only, and the pattern of the
    filter made for it is the whole of [rest], trimmed. *)
Theorem parse_query_filters_first_equals
    (pairs : list (str * str)) (i : nat) (f rest : str) :
  Forall cut_at_first pairs ->
  pairs !! i = Some (f, rest) ->
  equals ∈ rest ->
  split equals 1 (segment (f, rest)) = [f; rest]
  /\ exists filters,
       parse_query_filters (join comma (map segment pairs)) = Ok filters
       /\ length filters = length pairs
       /\ filters !! i = Some {| field := strip f; pattern := strip rest |}.
Proof.
  intros Hall Hi _. split.
  - apply split_once_at_first.
    by destruct (Forall_lookup_1 _ _ _ _ Hall Hi) as (_ & _ & ?).
  - eexists. split; [|split].
    + apply parse_query_filters_pairs; [|done]. by intros ->.
    + by rewrite length_map.
    + by rewrite lookup_map, Hi.
Qed.

Lemma parse_query_filters_first_equals_witness :
  exists filters,
    parse_query_filters (py "name=Bob,field=a=b") = Ok filters
    /\ length filters = 2%nat
    /\ filters !! 1%nat
       = Some {| field := py "field"; pattern := py "a=b" |}.
Proof.
  apply (parse_query_filters_first_equals
           [(py "name", py "Bob"); (py "field", py "a=b")]
           1 (py "field") (py "a=b")).
  - repeat constructor; compute_done.
  - reflexivity.
  - compute_done.
Defined.

(** C5: the attributes of a filter built by QueryFilter.__init__ are
    trimmed, whatever the arguments; so are those of every filter that
    parse_query_filters returns; and [" name "], [" Bob "] give ["name"],
    ["Bob"]. *)
Theorem QueryFilter_trimmed :
  (forall f p,
     trimmed (field (QueryFilter_init f p)) = true
     /\ trimmed (pattern (QueryFilter_init f p)) = true)
  /\ (forall query filters,
        parse_query_filters query = Ok filters ->
        Forall (fun q => trimmed (field q) = true
                         /\ trimmed (pattern q) = true) filters)
  /\ QueryFilter_init (py " name ") (py " Bob ")
     = {| field := py "name"; pattern := py "Bob" |}.
Proof.
  assert (Hinit : forall f p,
     trimmed (field (QueryFilter_init f p)) = true
     /\ trimmed (pattern (QueryFilter_init f p)) = true).
  { intros f p. split; apply trimmed_strip. }
  split; [exact Hinit|]. split; [|reflexivity].
  intros query filters.
  by apply parse_query_filters_loop_invariant.
Qed.

Lemma QueryFilter_trimmed_witness :
  Forall (fun q => trimmed (field q) = true /\ trimmed (pattern q) = true)
    [ {| field := py "name"; pattern := py "Bob" |} ].
Proof.
  apply (proj1 (proj2 QueryFilter_trimmed) (py " name = Bob ")).
  reflexivity.
Defined.

(** C6: a segment with an ['='] in it and nothing before it, or nothing
    after it, is no fault: the filter made for it has the empty string for
    that attribute. *)
Theorem parse_query_filters_empty_part
    (pairs : list (str * str)) (i : nat) (f p : str) :
  Forall cut_at_first pairs ->
  pairs !! i = Some (f, p) ->
  f = [] \/ p = [] ->
  exists filters q,
    parse_query_filters (join comma (map segment pairs)) = Ok filters
    /\ filters !! i = Some q
    /\ q = {| field := strip f; pattern := strip p |}
    /\ (f = [] -> field q = [])
    /\ (p = [] -> pattern q = []).
Proof.
  intros Hall Hi _. eexists _, _. split; [|split; [|split; [reflexivity|]]].
  - apply parse_query_filters_pairs; [|done]. by intros ->.
  - by rewrite lookup_map, Hi.
  - split; intros ->; reflexivity.
Qed.

Lemma parse_query_filters_empty_part_witness :
  (exists filters q,
     parse_query_filters (py "=pattern") = Ok filters
     /\ filters !! 0%nat = Some q
     /\ q = {| field := []; pattern := py "pattern" |}
     /\ (@nil char = [] -> field q = [])
     /\ (py "pattern" = [] -> pattern q = []))
  /\ (exists filters q,
        parse_query_filters (py "a=b,field=") = Ok filters
        /\ filters !! 1%nat = Some q
        /\ q = {| field := py "field"; pattern := [] |}
        /\ (py "field" = [] -> field q = [])
        /\ (@nil char = [] -> pattern q = [])).
Proof.
  split.
  - apply (parse_query_filters_empty_part [([], py "pattern")] 0 []
             (py "pattern")).
    + repeat constructor; compute_done.
    + reflexivity.
    + by left.
  - apply (parse_query_filters_empty_part
             [(py "a", py "b"); (py "field", [])] 1 (py "field") []).
    + repeat constructor; compute_done.
    + reflexivity.
    + by right.
Defined.

(** ** get_option_selection *)

Lemma getitem_in_range {A} (l : list A) (i : Z) :
  0 <= i < Z.of_nat (length l) ->
  exists x, l !! Z.to_nat i = Some x /\ getitem l i = Ok x.
Proof.
  intros Hi. unfold getitem.
  destruct (Z.ltb_spec i 0); [lia|].
  destruct (Z.leb_spec 0 i); [|lia].
  destruct (Z.ltb_spec i (Z.of_nat (length l))); [|lia]. simpl.
  destruct (lookup_lt_is_Some_2 l (Z.to_nat i)) as [x Hx]; [lia|].
  exists x. by rewrite Hx.
Qed.

Section OptionSelectionProperties.

Variable int : str -> option Z.

Lemma in_range_test (options : list str) (i : Z) :
  (-1 <? i) && (i <? Z.of_nat (length options)) = true
  <-> 0 <= i < Z.of_nat (length options).
Proof. rewrite andb_true_iff, !Z.ltb_lt. lia. Qed.

(** Lines that are not accepted are read one after the other, each one
    answered by its message. *)
Lemma get_option_selection_loop_rejected options prompt pre lines out :
  Forall (fun line => ~ accepted int options line) pre ->
  get_option_selection_loop int options prompt (pre ++ lines) out
  = get_option_selection_loop int options prompt lines
      (out ++ rejections int prompt pre).
Proof.
  intros Hpre. revert out.
  induction Hpre as [|line pre Hline _ IH]; intros out.
  - simpl. by rewrite app_nil_r.
  - cbn [app get_option_selection_loop rejections flat_map].
    fold (rejections int prompt pre). unfold rejection_message.
    destruct (int (strip line)) as [i|] eqn:Hint.
    + destruct ((-1 <? i) && (i <? Z.of_nat (length options))) eqn:Hi.
      * exfalso. apply Hline. exists i. split; [done|].
        by apply in_range_test.
      * cbn [negb]. rewrite IH. f_equal. by rewrite <- !app_assoc.
    + rewrite IH. f_equal. by rewrite <- !app_assoc.
Qed.

Lemma get_option_selection_loop_accepted options prompt line rest out i :
  int (strip line) = Some i -> 0 <= i < Z.of_nat (length options) ->
  get_option_selection_loop int options prompt (line :: rest) out
  = (Ok i, mkConsole rest (out ++ [Prompted prompt])).
Proof.
  intros Hint Hi. cbn [get_option_selection_loop]. rewrite Hint.
  apply in_range_test in Hi. by rewrite Hi.
Qed.

Lemma get_option_selection_loop_in_range options prompt lines out i c' :
  get_option_selection_loop int options prompt lines out = (Ok i, c') ->
  0 <= i < Z.of_nat (length options).
Proof.
  revert out. induction lines as [|line lines IH]; intros out; [done|].
  cbn [get_option_selection_loop].
  destruct (int (strip line)) as [j|]; [|apply IH].
  destruct ((-1 <? j) && (j <? Z.of_nat (length options))) eqn:Hj.
  - cbn [negb]. intros [= <- <-]. by apply in_range_test.
  - cbn [negb]. apply IH.
Qed.

Lemma get_option_selection_loop_outcome options prompt lines out :
  (exists i c',
     get_option_selection_loop int options prompt lines out = (Ok i, c'))
  \/ (exists c',
        get_option_selection_loop int options prompt lines out
        = (Raise EOFError, c')).
Proof.
  revert out. induction lines as [|line lines IH]; intros out.
  - right. by eexists.
  - cbn [get_option_selection_loop].
    destruct (int (strip line)) as [j|]; [|apply IH].
    destruct (negb _); [apply IH|]. left. by eexists _, _.
Qed.

Lemma not_accepted_nil line : ~ accepted int [] line.
Proof. intros (i & _ & Hi). simpl in Hi. lia. Qed.

(** One iteration of the loop, in terms of [input] and [print]. *)
Lemma get_option_selection_loop_iteration options prompt c :
  get_option_selection_loop int options prompt (stdin c) (stdout c)
  = match input prompt c with
    | (Raise e, c1) => (Raise e, c1)
    | (Ok line, c1) =>
        let again message :=
          let c2 := print message c1 in
          get_option_selection_loop int options prompt (stdin c2) (stdout c2)
        in
        match int (strip line) with
        | Some selected_option =>
            if negb ((-1 <? selected_option)
                     && (selected_option <? Z.of_nat (length options)))
            then again out_of_range_message
            else (Ok selected_option, c1)
        | None => again not_an_integer_message
        end
    end.
Proof. destruct c as [[|line lines] out]; reflexivity. Qed.

Lemma accepted_dec options line :
  {accepted int options line} + {~ accepted int options line}.
Proof.
  unfold accepted. destruct (int (strip line)) as [i|].
  - destruct (decide (0 <= i < Z.of_nat (length options))) as [Hi|Hi].
    + left. by exists i.
    + right. by intros (? & [= <-] & ?).
  - right. by intros (? & [=] & _).
Qed.

(** An input that holds an accepted line has a first one. *)
Lemma first_accepted options lines :
  Exists (accepted int options) lines ->
  exists pre line rest,
    lines = pre ++ line :: rest
    /\ Forall (fun l => ~ accepted int options l) pre
    /\ accepted int options line.
Proof.
  induction lines as [|l lines IH]; intros Hex; [by inversion Hex|].
  destruct (accepted_dec options l) as [Hl|Hl].
  - by exists [], l, lines.
  - destruct IH as (pre & line & rest & -> & Hpre & Hline).
    { by inversion Hex. }
    exists (l :: pre), line, rest. split; [done|]. split; [|done].
    by constructor.
Qed.

Lemma get_option_selection_accepts options prompt pre line rest out i :
  Forall (fun l => ~ accepted int options l) pre ->
  int (strip line) = Some i ->
  0 <= i < Z.of_nat (length options) ->
  exists label,
    options !! Z.to_nat i = Some label
    /\ get_option_selection int options prompt
         (mkConsole (pre ++ line :: rest) out)
       = (Ok label,
          mkConsole rest
            (out ++ rejections int prompt pre ++ [Prompted prompt])).
Proof.
  intros Hpre Hint Hi.
  destruct (getitem_in_range options i Hi) as (label & Hlook & Hget).
  exists label. split; [done|].
  unfold get_option_selection. cbn [stdin stdout].
  rewrite get_option_selection_loop_rejected by done.
  rewrite (get_option_selection_loop_accepted _ _ _ _ _ i) by done.
  by rewrite Hget, <- app_assoc.
Qed.

(** C7: when the input holds a line that trims and parses to an index of
    [options], the function returns [options[i]] for the first such line,
    [i] being its index: the lines [pre] before it are each asked for with
    the prompt and answered with the message for them (out of range for an
    integer, not a valid integer otherwise), the prompt is shown once more
    for the accepted line, and the lines after it are left unread. *)
Theorem get_option_selection_first_accepted
    (options : list str) (prompt : str) (c : console) :
  Exists (accepted int options) (stdin c) ->
  exists pre line rest i label,
    stdin c = pre ++ line :: rest
    /\ Forall (fun l => ~ accepted int options l) pre
    /\ int (strip line) = Some i
    /\ 0 <= i < Z.of_nat (length options)
    /\ options !! Z.to_nat i = Some label
    /\ get_option_selection int options prompt c
       = (Ok label,
          mkConsole rest
            (stdout c ++ rejections int prompt pre ++ [Prompted prompt])).
Proof.
  intros (pre & line & rest & Hlines & Hpre & i & Hint & Hi)%first_accepted.
  destruct (get_option_selection_accepts options prompt pre line rest
              (stdout c) i Hpre Hint Hi) as (label & Hlook & Hcall).
  exists pre, line, rest, i, label. repeat (split; [done|]).
  destruct c as [lines out]. cbn [stdin stdout] in *. by subst lines.
Qed.

(** C10: when the loop is left with an index, the index is within
    [options], so the indexing that follows gives the option and does not
    fault; the function never ends with IndexError.  With no options no line
    is accepted: whatever lines are supplied, all of them are read and
    turned down, and the function does not return (it stops only when
    [input] finds no more line). *)
Theorem get_option_selection_index_in_range
    (options : list str) (prompt : str) (c : console) :
  (forall i c',
     get_option_selection_loop int options prompt (stdin c) (stdout c)
     = (Ok i, c') ->
     0 <= i < Z.of_nat (length options)
     /\ exists label,
          options !! Z.to_nat i = Some label
          /\ getitem options i = Ok label
          /\ get_option_selection int options prompt c = (Ok label, c'))
  /\ (get_option_selection int options prompt c).1 <> Raise IndexError
  /\ (forall line, ~ accepted int [] line)
  /\ get_option_selection int [] prompt c
     = (Raise EOFError,
        mkConsole []
          (stdout c ++ rejections int prompt (stdin c) ++ [Prompted prompt])).
Proof.
  assert (Hret : forall i c',
     get_option_selection_loop int options prompt (stdin c) (stdout c)
     = (Ok i, c') ->
     0 <= i < Z.of_nat (length options)
     /\ exists label,
          options !! Z.to_nat i = Some label
          /\ getitem options i = Ok label
          /\ get_option_selection int options prompt c = (Ok label, c')).
  { intros i c' Hloop.
    pose proof (get_option_selection_loop_in_range _ _ _ _ _ _ Hloop) as Hi.
    split; [done|].
    destruct (getitem_in_range options i Hi) as (label & Hlook & Hget).
    exists label. unfold get_option_selection. by rewrite Hloop, Hget. }
  split; [exact Hret|]. split; [|split; [apply not_accepted_nil|]].
  - destruct (get_option_selection_loop_outcome options prompt
                (stdin c) (stdout c)) as [(i & c' & Hloop)|(c' & Hloop)].
    + destruct (Hret i c' Hloop) as (_ & label & _ & _ & ->). done.
    + unfold get_option_selection. by rewrite Hloop.
  - unfold get_option_selection.
    rewrite <- (app_nil_r (stdin c)) at 1.
    rewrite get_option_selection_loop_rejected.
    + simpl. by rewrite <- app_assoc.
    + apply Forall_forall. intros line _. apply not_accepted_nil.
Qed.

End OptionSelectionProperties.

Lemma get_option_selection_first_accepted_witness :
  let options := [py "a"; py "b"; py "c"] in
  let c := mkConsole [py "5"; py "1"] [] in
  exists pre line rest i label,
    stdin c = pre ++ line :: rest
    /\ Forall (fun l => ~ accepted ascii_int options l) pre
    /\ ascii_int (strip line) = Some i
    /\ 0 <= i < Z.of_nat (length options)
    /\ options !! Z.to_nat i = Some label
    /\ get_option_selection ascii_int options (py "Option: ") c
       = (Ok label,
          mkConsole rest
            (stdout c ++ rejections ascii_int (py "Option: ") pre
             ++ [Prompted (py "Option: ")])).
Proof.
  apply (get_option_selection_first_accepted ascii_int
           [py "a"; py "b"; py "c"] (py "Option: ")
           (mkConsole [py "5"; py "1"] [])).
  apply Exists_cons_tl, Exists_cons_hd. exists 1.
  split; [reflexivity | simpl; lia].
Defined.

(** The two examples of the specification: ["5"] then ["1"] gives ["b"]
    after one out-of-range message, ["x"] then ["0"] gives ["a"] after one
    not-a-valid-integer message. *)
Example get_option_selection_5_then_1 :
  get_option_selection ascii_int [py "a"; py "b"; py "c"] (py "Option: ")
    (mkConsole [py "5"; py "1"] [])
  = (Ok (py "b"),
     mkConsole []
       [Prompted (py "Option: "); Printed out_of_range_message;
        Prompted (py "Option: ")]).
Proof. reflexivity. Qed.

Example get_option_selection_x_then_0 :
  get_option_selection ascii_int [py "a"; py "b"; py "c"] (py "Option: ")
    (mkConsole [py "x"; py "0"] [])
  = (Ok (py "a"),
     mkConsole []
       [Prompted (py "Option: "); Printed not_an_integer_message;
        Prompted (py "Option: ")]).
Proof. reflexivity. Qed.

Lemma get_option_selection_index_in_range_witness :
  0 <= 1 < 3
  /\ exists label,
       [py "a"; py "b"; py "c"] !! Z.to_nat 1 = Some label
       /\ getitem [py "a"; py "b"; py "c"] 1 = Ok label
       /\ get_option_selection ascii_int [py "a"; py "b"; py "c"]
            (py "Option: ") (mkConsole [py "x"; py " 1 "; py "0"] [])
          = (Ok label,
             mkConsole [py "0"]
               [Prompted (py "Option: "); Printed not_an_integer_message;
                Prompted (py "Option: ")]).
Proof.
  apply (proj1 (get_option_selection_index_in_range ascii_int
                  [py "a"; py "b"; py "c"] (py "Option: ")
                  (mkConsole [py "x"; py " 1 "; py "0"] []))).
  reflexivity.
Defined.

(** ** The file system *)

Lemma stat_errno s p e : stat s p = inl e -> e = ENOENT \/ e = ENOTDIR.
Proof.
  revert e. induction p as [|name parent IH]; intros e; cbn [stat]; [done|].
  destruct (stat s parent) as [e'|[]].
  - intros [= <-]. by apply IH.
  - destruct (entries s !! (name :: parent)); [done|]. intros [= <-]. by left.
  - intros [= <-]. by right.
Qed.

Lemma stat_parent s name parent k :
  stat s (name :: parent) = inr k ->
  stat s parent = inr Dir /\ entries s !! (name :: parent) = Some k.
Proof.
  cbn [stat]. destruct (stat s parent) as [|[]]; [done| |done].
  destruct (entries s !! (name :: parent)); [|done]. by intros [= ->].
Qed.

(** A new entry does not change how the paths that exist resolve. *)
Lemma stat_insert s p q k :
  entries s !! p = None ->
  stat s q = inr k ->
  stat (mkFs (<[p := Dir]> (entries s)) (readonly s)) q = inr k.
Proof.
  intros Hp. revert k. induction q as [|name parent IH]; intros k; [done|].
  intros [Hparent Hq]%stat_parent. cbn [stat entries].
  rewrite (IH _ Hparent), lookup_insert_ne, Hq; [done|].
  intros ->. by rewrite Hp in Hq.
Qed.

Lemma os_mkdir_Ok p s s' :
  os_mkdir p s = (Ok (), s') -> stat s' p = inr Dir.
Proof.
  destruct p as [|name parent]; [done|]. cbn [os_mkdir].
  destruct (stat s parent) as [|[]] eqn:Hparent; [done| |done].
  destruct (entries s !! (name :: parent)) eqn:Hp; [done|].
  destruct (decide _); [done|]. intros [= <-]. cbn [stat entries].
  by rewrite (stat_insert _ _ _ _ Hp Hparent), lookup_insert_eq.
Qed.

Lemma os_mkdir_Raise p s s' e : os_mkdir p s = (Raise e, s') -> s' = s.
Proof.
  destruct p as [|name parent]; cbn [os_mkdir]; [by intros [= _ <-]|].
  destruct (stat s parent) as [|[]]; [by intros [= _ <-]| |by intros [= _ <-]].
  destruct (entries s !! (name :: parent)); [by intros [= _ <-]|].
  destruct (decide _); [by intros [= _ <-] | done].
Qed.

Lemma os_mkdir_EEXIST p s s' :
  os_mkdir p s = (Raise (OSError EEXIST), s') ->
  s' = s /\ exists k, stat s p = inr k.
Proof.
  intros H. split; [by apply os_mkdir_Raise in H|].
  destruct p as [|name parent]; [by exists Dir|].
  cbn [os_mkdir stat] in *.
  destruct (stat s parent) as [e|[]] eqn:Hparent.
  - injection H as H _. by destruct (stat_errno _ _ _ Hparent) as [->| ->].
  - destruct (entries s !! (name :: parent)) as [k|]; [by exists k|].
    by destruct (decide _).
  - done.
Qed.

Lemma os_mkdir_exists p s k :
  stat s p = inr k -> os_mkdir p s = (Raise (OSError EEXIST), s).
Proof.
  destruct p as [|name parent]; [done|].
  intros [Hparent Hp]%stat_parent. cbn [os_mkdir]. by rewrite Hparent, Hp.
Qed.

(** [os.makedirs] on a path that exists raises [FileExistsError] and
    changes nothing. *)
Lemma os_makedirs_exists p s k :
  stat s p = inr k -> os_makedirs p s = (Raise (OSError EEXIST), s).
Proof.
  intros Hp. destruct p as [|name parent]; [done|].
  cbn [os_makedirs]. unfold os_path_exists.
  destruct (stat_parent _ _ _ _ Hp) as [-> _].
  by apply os_mkdir_exists with k.
Qed.

(** Where [os.makedirs] ends: every run ends with the [mkdir] of the path,
    or with an error of the recursive call that is not [EEXIST]. *)
Lemma os_makedirs_ends p s r s' :
  os_makedirs p s = (r, s') ->
  (exists s1, os_mkdir p s1 = (r, s'))
  \/ (exists e, r = Raise e /\ e <> OSError EEXIST).
Proof.
  destruct p as [|name head]; cbn [os_makedirs]; [by left; exists s|].
  destruct (os_path_exists s head); [by left; exists s|].
  destruct (os_makedirs head s) as [[[]|e] s1]; [by left; exists s1|].
  destruct e as [| | |errno| | |];
    try (intros [= <- <-]; right; by eexists).
  destruct (Z.eqb_spec errno EEXIST) as [->|Hne]; [by left; exists s1|].
  intros [= <- <-]. right. eexists. split; [done|]. by intros [= ?].
Qed.

Lemma os_makedirs_Ok p s s' :
  os_makedirs p s = (Ok (), s') -> stat s' p = inr Dir.
Proof.
  intros [[s1 H]|(e & ? & _)]%os_makedirs_ends; [|done].
  by apply os_mkdir_Ok in H.
Qed.

Lemma os_makedirs_EEXIST p s s' :
  os_makedirs p s = (Raise (OSError EEXIST), s') ->
  exists k, stat s' p = inr k.
Proof.
  intros [[s1 H]|(e & [= <-] & ?)]%os_makedirs_ends; [|done].
  by apply os_mkdir_EEXIST in H as [-> ?].
Qed.

Lemma stat_File s p : stat s p = inr File -> entries s !! p = Some File.
Proof.
  destruct p as [|name parent]; [done|]. by intros [_ ?]%stat_parent.
Qed.

(** [os.mkdir] and [os.makedirs] make directories only and leave the
    read-only set alone. *)
Lemma os_mkdir_preserves p s r s' :
  os_mkdir p s = (r, s') ->
  readonly s' = readonly s
  /\ forall q, entries s' !! q = Some File -> entries s !! q = Some File.
Proof.
  destruct r as [[]|e]; [|by intros ->%os_mkdir_Raise].
  destruct p as [|name parent]; [done|]. cbn [os_mkdir].
  destruct (stat s parent) as [|[]]; [done| |done].
  destruct (entries s !! _) eqn:Hp; [done|].
  destruct (decide _); [done|]. intros [= <-]. split; [done|].
  intros q. cbn [entries]. rewrite lookup_insert.
  by destruct (decide (name :: parent = q)).
Qed.

Lemma os_makedirs_preserves p s r s' :
  os_makedirs p s = (r, s') ->
  readonly s' = readonly s
  /\ forall q, entries s' !! q = Some File -> entries s !! q = Some File.
Proof.
  revert s r s'. induction p as [|name head IH]; intros s r s';
    cbn [os_makedirs]; [apply os_mkdir_preserves|].
  destruct (os_path_exists s head); [apply os_mkdir_preserves|].
  destruct (os_makedirs head s) as [r1 s1] eqn:Hhead.
  destruct (IH _ _ _ Hhead) as [Hro Hfiles].
  assert (Hmkdir : os_mkdir (name :: head) s1 = (r, s') ->
    readonly s' = readonly s
    /\ forall q, entries s' !! q = Some File -> entries s !! q = Some File).
  { intros [Hro' Hfiles']%os_mkdir_preserves. split; [congruence | auto]. }
  destruct r1 as [[]|e]; [done|].
  destruct e as [| | |errno| | |]; try by intros [= <- <-].
  destruct (errno =? EEXIST); [done | by intros [= <- <-]].
Qed.

Lemma no_file_on_parent s name parent :
  no_file_on s (name :: parent) = true -> no_file_on s parent = true.
Proof. cbn [no_file_on]. by intros [_ ?]%andb_true_iff. Qed.

Lemma no_file_on_entry s p :
  no_file_on s p = true -> entries s !! p <> Some File.
Proof.
  destruct p; cbn [no_file_on]; intros [H _]%andb_true_iff;
    by apply negb_true_iff, bool_decide_eq_false in H.
Qed.

Lemma os_mkdir_writable name parent s :
  stat s parent = inr Dir -> readonly s = ∅ ->
  exists s',
    os_mkdir (name :: parent) s = (Ok (), s')
    \/ os_mkdir (name :: parent) s = (Raise (OSError EEXIST), s').
Proof.
  intros Hparent Hro. cbn [os_mkdir]. rewrite Hparent, Hro.
  destruct (entries s !! _); [by eexists; right|].
  destruct (decide _) as [Hin|_]; [set_solver | by eexists; left].
Qed.

(** Without a regular file in the way and without read-only directory,
    [os.makedirs] ends normally or with [EEXIST]. *)
Lemma os_makedirs_clear p s :
  no_file_on s p = true -> readonly s = ∅ ->
  exists s',
    os_makedirs p s = (Ok (), s')
    \/ os_makedirs p s = (Raise (OSError EEXIST), s').
Proof.
  revert s. induction p as [|name head IH]; intros s Hclear Hro;
    [by eexists; right|].
  apply no_file_on_parent in Hclear.
  assert (Hdir : forall s1 k,
    stat s1 head = inr k ->
    (forall q, entries s1 !! q = Some File -> entries s !! q = Some File) ->
    stat s1 head = inr Dir).
  { intros s1 [] Hk Hfiles; [done|]. exfalso.
    by apply (no_file_on_entry _ _ Hclear), Hfiles, stat_File. }
  cbn [os_makedirs]. unfold os_path_exists.
  destruct (stat s head) as [e|k] eqn:Hhead.
  - destruct (IH s Hclear Hro) as [s1 Hmk].
    assert (exists k, stat s1 head = inr k) as [k Hk].
    { destruct Hmk as [Hmk|Hmk];
        [exists Dir; by apply os_makedirs_Ok in Hmk
        | by apply os_makedirs_EEXIST in Hmk]. }
    assert (os_makedirs head s = (Ok (), s1)
            \/ os_makedirs head s = (Raise (OSError EEXIST), s1)) as Hmk'
      by done.
    destruct Hmk as [Hmk|Hmk];
      destruct (os_makedirs_preserves _ _ _ _ Hmk) as [Hro1 Hfiles];
      rewrite Hmk; cbn [Z.eqb EEXIST Pos.eqb];
      apply os_mkdir_writable; try congruence; by apply Hdir with k.
  - apply os_mkdir_writable; [|done]. by apply Hdir with k.
Qed.

(** ** try_create_dir *)

Lemma try_create_dir_Ok p s s' :
  try_create_dir p s = (Ok (), s') -> exists k, stat s' p = inr k.
Proof.
  unfold try_create_dir.
  destruct (os_makedirs p s) as [[[]|e] s1] eqn:Hmk.
  - intros [= <-]. exists Dir. by apply os_makedirs_Ok in Hmk.
  - destruct e as [| | |errno| | |]; try done.
    destruct (Z.eqb_spec errno EEXIST) as [->|]; [|done].
    cbn [negb]. intros [= <-]. by apply os_makedirs_EEXIST in Hmk.
Qed.

Lemma try_create_dir_exists p s k :
  stat s p = inr k -> try_create_dir p s = (Ok (), s).
Proof.
  intros Hp. unfold try_create_dir.
  by rewrite (os_makedirs_exists _ _ _ Hp).
Qed.

Lemma try_create_dir_propagates p s e s' :
  os_makedirs p s = (Raise e, s') -> e <> OSError EEXIST ->
  try_create_dir p s = (Raise e, s').
Proof.
  intros Hmk He. unfold try_create_dir. rewrite Hmk.
  destruct e as [| | |errno| | |]; try done.
  destruct (Z.eqb_spec errno EEXIST) as [->|]; done.
Qed.

(** The first call on a path with no regular file in the way, in a file
    system without read-only directory, returns normally and the path is a
    directory afterwards. *)
Lemma try_create_dir_clear p s :
  no_file_on s p = true -> readonly s = ∅ ->
  exists s1,
    try_create_dir p s = (Ok (), s1) /\ os_path_isdir s1 p = true.
Proof.
  intros Hclear Hro.
  destruct (os_makedirs_clear p s Hclear Hro) as [s1 Hmk]. exists s1.
  assert (try_create_dir p s = (Ok (), s1)) as Hcall.
  { unfold try_create_dir. by destruct Hmk as [-> | ->]. }
  split; [done|]. unfold os_path_isdir.
  destruct (try_create_dir_Ok _ _ _ Hcall) as [[] Hk]; rewrite Hk; [done|].
  exfalso. apply (no_file_on_entry _ _ Hclear).
  assert (forall q, entries s1 !! q = Some File -> entries s !! q = Some File)
    as Hfiles by (destruct Hmk as [Hmk|Hmk];
                  by apply os_makedirs_preserves in Hmk as [_ ?]).
  by apply Hfiles, stat_File.
Qed.

(** C8: on a path that is a directory already the call returns normally
    and leaves the file system as it is; a call that returned normally can
    be made again on the same path and returns normally again, and so do
    both calls where nothing is in the way of the first, after which the
    path is a directory; and an exception of [os.makedirs] that is not the
    [OSError] with [EEXIST] comes out of try_create_dir as it is. *)
Theorem try_create_dir_existing_directory (directory_path : path) (s : fs) :
  (os_path_isdir s directory_path = true ->
   try_create_dir directory_path s = (Ok (), s))
  /\ (forall s1,
        try_create_dir directory_path s = (Ok (), s1) ->
        try_create_dir directory_path s1 = (Ok (), s1))
  /\ (no_file_on s directory_path = true -> readonly s = ∅ ->
      exists s1,
        try_create_dir directory_path s = (Ok (), s1)
        /\ try_create_dir directory_path s1 = (Ok (), s1)
        /\ os_path_isdir s1 directory_path = true)
  /\ (forall e s1,
        os_makedirs directory_path s = (Raise e, s1) ->
        e <> OSError EEXIST ->
        try_create_dir directory_path s = (Raise e, s1)).
Proof.
  assert (Hagain : forall s1,
    try_create_dir directory_path s = (Ok (), s1) ->
    try_create_dir directory_path s1 = (Ok (), s1)).
  { intros s1 [k Hp]%try_create_dir_Ok.
    by apply try_create_dir_exists with k. }
  split; [|split; [exact Hagain|split]].
  - unfold os_path_isdir.
    destruct (stat s directory_path) as [|[]] eqn:Hp; [done| |done].
    intros _. by apply try_create_dir_exists with Dir.
  - intros Hclear Hro.
    destruct (try_create_dir_clear _ _ Hclear Hro) as (s1 & Hcall & Hdir).
    exists s1. auto.
  - apply try_create_dir_propagates.
Qed.

(** C9: on a path that is a regular file the call returns normally as
    well, the [EEXIST] of [os.makedirs] being passed over whatever the entry
    is; the file system is left as it is, so no directory was made. *)
Theorem try_create_dir_existing_file (directory_path : path) (s : fs) :
  stat s directory_path = inr File ->
  os_makedirs directory_path s = (Raise (OSError EEXIST), s)
  /\ try_create_dir directory_path s = (Ok (), s)
  /\ os_path_isdir s directory_path = false.
Proof.
  intros Hp. split; [by apply os_makedirs_exists with File|].
  split; [by apply try_create_dir_exists with File|].
  unfold os_path_isdir. by rewrite Hp.
Qed.

Lemma try_create_dir_existing_directory_witness :
  try_create_dir (mkpath ["pkg"]%string) example_fs = (Ok (), example_fs)
  /\ (let s1 := (try_create_dir (mkpath ["a"; "b"; "c"]%string) example_fs).2
      in try_create_dir (mkpath ["a"; "b"; "c"]%string) s1 = (Ok (), s1))
  /\ (exists s1,
        try_create_dir (mkpath ["a"; "b"; "c"]%string) example_fs
        = (Ok (), s1)
        /\ try_create_dir (mkpath ["a"; "b"; "c"]%string) s1 = (Ok (), s1)
        /\ os_path_isdir s1 (mkpath ["a"; "b"; "c"]%string) = true)
  /\ try_create_dir (mkpath ["notes"; "sub"]%string) example_fs
     = (Raise (OSError ENOTDIR), example_fs).
Proof.
  split; [|split; [|split]].
  - apply (proj1 (try_create_dir_existing_directory
                    (mkpath ["pkg"]%string) example_fs)).
    vm_compute. reflexivity.
  - apply (proj1 (proj2 (try_create_dir_existing_directory
                           (mkpath ["a"; "b"; "c"]%string) example_fs))).
    vm_compute. reflexivity.
  - apply (proj1 (proj2 (proj2 (try_create_dir_existing_directory
                           (mkpath ["a"; "b"; "c"]%string) example_fs)))).
    + vm_compute. reflexivity.
    + vm_compute. reflexivity.
  - apply (proj2 (proj2 (proj2 (try_create_dir_existing_directory
                           (mkpath ["notes"; "sub"]%string) example_fs)))).
    + vm_compute. reflexivity.
    + discriminate.
Defined.

Lemma try_create_dir_existing_file_witness :
  os_makedirs (mkpath ["notes"]%string) example_fs
  = (Raise (OSError EEXIST), example_fs)
  /\ try_create_dir (mkpath ["notes"]%string) example_fs
     = (Ok (), example_fs)
  /\ os_path_isdir example_fs (mkpath ["notes"]%string) = false.
Proof.
  apply (try_create_dir_existing_file (mkpath ["notes"]%string) example_fs).
  vm_compute. reflexivity.
Defined.

(** ** get_module_files *)

Lemma lstrip_by_keep p c s : p c = false -> lstrip_by p (c :: s) = c :: s.
Proof. intros H. simpl. by rewrite H. Qed.

(** Where [strip('.py')] does remove the extension: the stem neither
    starts nor ends with one of [.], [p], [y]. *)
Lemma strip_chars_module_file stem first last_char :
  head stem = Some first -> last stem = Some last_char ->
  char_in (py ".py") first = false ->
  char_in (py ".py") last_char = false ->
  strip_chars (module_file stem) (py ".py") = stem.
Proof.
  intros Hhead Hlast Hfirst Hlast_char.
  unfold strip_chars, strip_by, module_file.
  destruct stem as [|c stem]; [done|]. injection Hhead as ->.
  cbn [app]. rewrite lstrip_by_keep by done. unfold rstrip_by.
  change (first :: stem ++ py ".py") with ((first :: stem) ++ py ".py").
  rewrite rev_app_distr.
  change (rev (py ".py")) with (py "yp.").
  rewrite <- head_rev in Hlast.
  destruct (rev (first :: stem)) as [|c r] eqn:Hrev; [done|].
  injection Hlast as ->.
  change (lstrip_by (char_in (py ".py")) (py "yp." ++ last_char :: r))
    with (lstrip_by (char_in (py ".py")) (last_char :: r)).
  rewrite lstrip_by_keep by done.
  by rewrite <- Hrev, rev_involutive.
Qed.

Lemma filter_Permutation {A} (f : A -> bool) (l l' : list A) :
  l ≡ₚ l' -> List.filter f l ≡ₚ List.filter f l'.
Proof.
  induction 1 as [|x l l' _ IH|x y l|l l' l'' _ IH _ IH']; simpl.
  - done.
  - destruct (f x); [by constructor | done].
  - destruct (f x), (f y); try done. apply perm_swap.
  - by etrans.
Qed.

(** What the function returns: one name per entry of the directory that
    does not start with [__], stripped of the characters [.], [p] and [y]
    at both ends. *)
Lemma get_module_files_listing s file names :
  os_listdir s (os_path_dirname (os_path_realpath s file)) = Ok names ->
  get_module_files s file
  = Ok (map (fun filename => strip_chars filename (py ".py"))
          (List.filter (fun x => negb (startswith x (py "__"))) names)).
Proof. intros H. unfold get_module_files. by rewrite H. Qed.

(** The example of the specification: next to [foo.py], [bar.py] and
    [__init__.py] the result is [foo] and [bar], in some order. *)
Lemma get_module_files_foo_bar s file names :
  os_listdir s (os_path_dirname (os_path_realpath s file)) = Ok names ->
  names ≡ₚ [py "foo.py"; py "bar.py"; py "__init__.py"] ->
  exists modules,
    get_module_files s file = Ok modules
    /\ modules ≡ₚ [py "foo"; py "bar"].
Proof.
  intros Hls Hperm. eexists. split; [by apply get_module_files_listing|].
  apply (filter_Permutation (fun x => negb (startswith x (py "__")))) in Hperm.
  apply (Permutation_map (fun filename => strip_chars filename (py ".py")))
    in Hperm.
  exact Hperm.
Qed.

Lemma get_module_files_example :
  exists modules,
    get_module_files example_fs (mkpath ["pkg"; "__init__.py"]%string)
    = Ok modules
    /\ modules ≡ₚ [py "foo"; py "bar"].
Proof.
  eexists. split; [vm_compute; reflexivity|].
  compute_done.
Qed.

(** C2, where the code departs from it: next to [happy.py] the function
    returns [ha], not the name without its extension, [happy]; the
    characters [.], [p] and [y] are stripped from both ends of the name. *)
Theorem get_module_files_strips_characters :
  (exists names,
     os_listdir happy_fs (mkpath ["pkg"]%string) = Ok names
     /\ names ≡ₚ [py "__init__.py"; module_file (py "happy")])
  /\ get_module_files happy_fs (mkpath ["pkg"; "__init__.py"]%string)
     = Ok [py "ha"]
  /\ py "ha" <> py "happy".
Proof.
  split; [|split].
  - eexists. split; [vm_compute; reflexivity | compute_done].
  - vm_compute. reflexivity.
  - discriminate.
Qed.

(** * Further properties *)

(** ** Stripping *)

Lemma lstrip_by_dropped p s :
  exists dropped,
    s = dropped ++ lstrip_by p s /\ Forall (fun c => p c = true) dropped.
Proof.
  induction s as [|c s (d & IH & Hd)]; simpl.
  - by exists [].
  - destruct (p c) eqn:Hc.
    + exists (c :: d). split; [simpl; by f_equal | by constructor].
    + by exists [].
Qed.

Lemma rstrip_by_dropped p s :
  exists dropped,
    s = rstrip_by p s ++ dropped /\ Forall (fun c => p c = true) dropped.
Proof.
  unfold rstrip_by. destruct (lstrip_by_dropped p (rev s)) as (d & Hd & Hall).
  exists (rev d). split; [|by apply Forall_rev].
  rewrite <- rev_app_distr, <- Hd. by rewrite rev_involutive.
Qed.

Lemma strip_by_dropped p s :
  exists l r,
    s = l ++ strip_by p s ++ r
    /\ Forall (fun c => p c = true) l /\ Forall (fun c => p c = true) r.
Proof.
  destruct (lstrip_by_dropped p s) as (l & Hl & Hlall).
  destruct (rstrip_by_dropped p (lstrip_by p s)) as (r & Hr & Hrall).
  exists l, r. unfold strip_by. by rewrite <- Hr.
Qed.

Lemma elem_of_strip_by p s c : c ∈ strip_by p s -> c ∈ s.
Proof.
  destruct (strip_by_dropped p s) as (l & r & Hs & _). intros Hc.
  rewrite Hs, !elem_of_app. auto.
Qed.

Lemma rstrip_by_keep p s c :
  last s = Some c -> p c = false -> rstrip_by p s = s.
Proof.
  intros Hlast Hc. unfold rstrip_by. rewrite <- head_rev in Hlast.
  destruct (rev s) as [|x r] eqn:Hrev; [done|]. injection Hlast as ->.
  rewrite lstrip_by_keep by done. by rewrite <- Hrev, rev_involutive.
Qed.

(** A string without [p] at either end is left as it is. *)
Lemma strip_by_fixed p s :
  (forall c, head s = Some c -> p c = false) ->
  (forall c, last s = Some c -> p c = false) ->
  strip_by p s = s.
Proof.
  intros Hhead Hlast. unfold strip_by.
  destruct s as [|c s]; [done|].
  rewrite lstrip_by_keep by by apply Hhead.
  destruct (last (c :: s)) as [x|] eqn:Hx.
  - apply rstrip_by_keep with x; [done | by apply Hlast].
  - by apply last_None in Hx.
Qed.

Lemma strip_by_idemp p s : strip_by p (strip_by p s) = strip_by p s.
Proof. apply strip_by_fixed; [apply strip_by_head | apply strip_by_last]. Qed.

Lemma strip_idemp s : strip (strip s) = strip s.
Proof. apply strip_by_idemp. Qed.

(** ** parse_query_filters, further *)

Lemma split_negative sep m m' s :
  m < 0 -> m' < 0 -> split sep m s = split sep m' s.
Proof.
  revert m m'. induction s as [|c s IH]; intros m m' Hm Hm'; [done|].
  cbn [split].
  destruct (Z.eqb_spec m 0); [lia|]. destruct (Z.eqb_spec m' 0); [lia|].
  destruct (c =? sep)%N; cbn [andb negb].
  - f_equal. apply IH; lia.
  - f_equal. by apply IH.
Qed.

Lemma split_cons_sep sep m s :
  m < 0 -> split sep m (sep :: s) = [] :: split sep m s.
Proof.
  intros Hm. cbn [split]. rewrite N.eqb_refl.
  destruct (Z.eqb_spec m 0); [lia|]. cbn [andb negb].
  f_equal. apply split_negative; lia.
Qed.

Lemma split_cons_other sep m c s :
  c <> sep -> split sep m (c :: s) = push_char c (split sep m s).
Proof.
  intros Hc. cbn [split]. by destruct (N.eqb_spec c sep).
Qed.

Lemma push_char_app c parts parts' :
  parts <> [] -> push_char c (parts ++ parts') = push_char c parts ++ parts'.
Proof. by destruct parts. Qed.

(** Splitting on both sides of a separator. *)
Lemma split_app_sep sep m a b :
  m < 0 -> split sep m (a ++ sep :: b) = split sep m a ++ split sep m b.
Proof.
  intros Hm. induction a as [|c a IH].
  - cbn [app]. by rewrite split_cons_sep.
  - cbn [app]. destruct (decide (c = sep)) as [->|Hc].
    + rewrite !split_cons_sep by done. by rewrite IH.
    + rewrite !split_cons_other by done. rewrite IH.
      apply push_char_app, split_not_nil.
Qed.

Lemma length_push_char c parts :
  parts <> [] -> length (push_char c parts) = length parts.
Proof. by destruct parts. Qed.

Lemma length_split sep m s :
  m < 0 -> length (split sep m s) = S (count sep s).
Proof.
  intros Hm. unfold count. induction s as [|c s IH]; [done|].
  destruct (decide (c = sep)) as [->|Hc].
  - rewrite split_cons_sep by done. cbn [length List.filter].
    rewrite N.eqb_refl. cbn [length]. by rewrite IH.
  - rewrite split_cons_other by done.
    rewrite length_push_char by apply split_not_nil.
    cbn [List.filter]. destruct (N.eqb_spec sep c); [by subst|]. done.
Qed.

Lemma parse_query_filters_loop_acc parts filters :
  parse_query_filters_loop parts filters
  = (fs ← parse_query_filters_loop parts []; Ok (filters ++ fs)).
Proof.
  revert filters. induction parts as [|part parts IH]; intros filters.
  - simpl. by rewrite app_nil_r.
  - cbn [parse_query_filters_loop].
    destruct (getitem part 0) as [f|]; [|done].
    destruct (getitem part 1) as [p|]; [|done]. cbn.
    rewrite (IH (filters ++ _)), (IH [_]).
    destruct (parse_query_filters_loop parts []); [|done]. cbn.
    by rewrite <- app_assoc.
Qed.

Lemma parse_query_filters_loop_app parts parts' filters :
  parse_query_filters_loop (parts ++ parts') filters
  = (fs ← parse_query_filters_loop parts filters;
     parse_query_filters_loop parts' fs).
Proof.
  revert filters. induction parts as [|part parts IH]; intros filters; [done|].
  cbn [app parse_query_filters_loop].
  destruct (getitem part 0) as [f|]; [|done].
  destruct (getitem part 1) as [p|]; [|done]. cbn. apply IH.
Qed.

Lemma parse_query_filters_loop_length parts filters filters' :
  parse_query_filters_loop parts filters = Ok filters' ->
  length filters' = (length filters + length parts)%nat.
Proof.
  revert filters. induction parts as [|part parts IH]; intros filters.
  - intros [= <-]. simpl. lia.
  - cbn [parse_query_filters_loop].
    destruct (getitem part 0) as [f|]; [|done].
    destruct (getitem part 1) as [p|]; [|done]. cbn.
    intros ->%IH. rewrite length_app. simpl. lia.
Qed.

(** X1: parse_query_filters returns filters exactly when every segment of
    the query holds an ['=']; in every other case it ends with IndexError,
    the only exception it raises. *)
Theorem parse_query_filters_returns_or_faults query :
  (Forall (fun seg => equals ∈ seg) (segments query)
   /\ exists filters, parse_query_filters query = Ok filters)
  \/ (Exists (fun seg => equals ∉ seg) (segments query)
      /\ parse_query_filters query = Raise IndexError).
Proof. apply parse_query_filters_outcome. Qed.

(** X2: a query that parses gives one filter more than it holds commas;
    the list returned is never empty. *)
Theorem parse_query_filters_count query filters :
  parse_query_filters query = Ok filters ->
  length filters = S (count comma query) /\ filters <> [].
Proof.
  unfold parse_query_filters. intros Hlen%parse_query_filters_loop_length.
  rewrite length_map, length_split in Hlen by lia. simpl in Hlen.
  split; [done|]. intros ->. done.
Qed.

Lemma parse_query_filters_count_witness :
  length [ {| field := py "a"; pattern := py "b" |};
           {| field := py "c"; pattern := py "d=e" |} ]
  = S (count comma (py "a=b, c=d=e"))
  /\ [ {| field := py "a"; pattern := py "b" |};
       {| field := py "c"; pattern := py "d=e" |} ] <> [].
Proof.
  apply (parse_query_filters_count (py "a=b, c=d=e")). reflexivity.
Defined.

(** X3: parsing two queries joined by a comma is parsing the one, then the
    other, and putting the filters of the second after those of the first;
    a fault in either is the fault of the whole. *)
Theorem parse_query_filters_app (query query' : str) :
  parse_query_filters (query ++ comma :: query')
  = (filters ← parse_query_filters query;
     filters' ← parse_query_filters query';
     Ok (filters ++ filters')).
Proof.
  unfold parse_query_filters.
  rewrite split_app_sep by lia. rewrite map_app.
  rewrite parse_query_filters_loop_app.
  destruct (parse_query_filters_loop _ []) as [filters|e]; [|done]. cbn.
  apply parse_query_filters_loop_acc.
Qed.

Lemma strip_cut_at_first fp :
  cut_at_first fp ->
  (equals ∉ strip fp.1) /\ (comma ∉ strip fp.1) /\ (comma ∉ strip fp.2).
Proof.
  intros (Hf & Hp & Heq).
  repeat split; intros H%elem_of_strip_by; done.
Qed.

(** X4: in the filters returned no field holds an ['='] or a comma and no
    pattern holds a comma. *)
Theorem parse_query_filters_no_separator query filters :
  parse_query_filters query = Ok filters ->
  Forall (fun q => (equals ∉ field q) /\ (comma ∉ field q)
                   /\ (comma ∉ pattern q)) filters.
Proof.
  intros Hparse.
  destruct (parse_query_filters_outcome query) as [[Hall _]|[_ Hfault]];
    [|congruence].
  destruct (query_segments query Hall) as (pairs & Hne & Hpairs & ->).
  rewrite parse_query_filters_pairs in Hparse by done.
  injection Hparse as <-. apply Forall_map.
  eapply Forall_impl; [exact Hpairs|]. intros fp. apply strip_cut_at_first.
Qed.

Lemma parse_query_filters_no_separator_witness :
  Forall (fun q => (equals ∉ field q) /\ (comma ∉ field q)
                   /\ (comma ∉ pattern q))
    [ {| field := py "a"; pattern := py "b" |};
      {| field := py "c"; pattern := py "d=e" |} ].
Proof.
  apply (parse_query_filters_no_separator (py "a=b, c=d=e")). reflexivity.
Defined.

(** X5: whitespace around a field or a pattern does not count: two queries
    whose segments agree once every field and pattern is trimmed parse to
    the same filters. *)
Theorem parse_query_filters_whitespace (pairs pairs' : list (str * str)) :
  pairs <> [] ->
  Forall cut_at_first pairs -> Forall cut_at_first pairs' ->
  Forall2 (fun fp fp' => strip fp.1 = strip fp'.1 /\ strip fp.2 = strip fp'.2)
    pairs pairs' ->
  parse_query_filters (join comma (map segment pairs))
  = parse_query_filters (join comma (map segment pairs')).
Proof.
  intros Hne Hcut Hcut' Hsame.
  rewrite !parse_query_filters_pairs; try done.
  - f_equal. clear Hne Hcut Hcut'.
    induction Hsame as [|fp fp' pairs pairs' [Hf Hp] _ IH]; [done|].
    cbn [map]. unfold QueryFilter_init at 1 3. by rewrite Hf, Hp, IH.
  - intros ->. inversion Hsame. by subst.
Qed.

Lemma parse_query_filters_whitespace_witness :
  parse_query_filters (py " name = Bob ,x=1")
  = parse_query_filters (py "name=Bob, x = 1 ").
Proof.
  apply (parse_query_filters_whitespace
           [(py " name ", py " Bob "); (py "x", py "1")]
           [(py "name", py "Bob"); (py " x ", py " 1 ")]).
  - discriminate.
  - repeat constructor; compute_done.
  - repeat constructor; compute_done.
  - repeat constructor; reflexivity.
Defined.

(** ** QueryFilter, further *)

(** X6: the constructor takes away whitespace only: each argument is the
    attribute made from it with nothing but whitespace before and after. *)
Theorem QueryFilter_init_removes_whitespace_only (f p : str) :
  (exists l r, f = l ++ field (QueryFilter_init f p) ++ r
               /\ whitespace l /\ whitespace r)
  /\ (exists l r, p = l ++ pattern (QueryFilter_init f p) ++ r
                  /\ whitespace l /\ whitespace r).
Proof. split; apply strip_by_dropped. Qed.

(** X7: building a filter again from the attributes of a filter the
    constructor made gives the same filter. *)
Theorem QueryFilter_init_idempotent (f p : str) :
  QueryFilter_init (field (QueryFilter_init f p))
    (pattern (QueryFilter_init f p))
  = QueryFilter_init f p.
Proof. unfold QueryFilter_init. cbn [field pattern]. by rewrite !strip_idemp. Qed.

(** ** get_option_selection, further *)

Section OptionSelectionFurther.

Variable int : str -> option Z.

Lemma get_option_selection_loop_consumes options prompt lines out i c' :
  get_option_selection_loop int options prompt lines out = (Ok i, c') ->
  exists pre line shown,
    lines = pre ++ line :: stdin c' /\ stdout c' = out ++ shown.
Proof.
  revert out. induction lines as [|l lines IH]; intros out; [done|].
  cbn [get_option_selection_loop].
  assert (Hagain : forall message,
    get_option_selection_loop int options prompt lines
      ((out ++ [Prompted prompt]) ++ [Printed message]) = (Ok i, c') ->
    exists pre line shown,
      l :: lines = pre ++ line :: stdin c' /\ stdout c' = out ++ shown).
  { intros message (pre & line & shown & -> & ->)%IH.
    exists (l :: pre), line, ([Prompted prompt; Printed message] ++ shown).
    split; [done|]. by rewrite <- !app_assoc. }
  destruct (int (strip l)) as [j|]; [|apply Hagain].
  destruct (negb _); [apply Hagain|].
  intros [= <- <-]. by exists [], l, [Prompted prompt].
Qed.

Lemma get_option_selection_loop_strip options prompt lines out :
  get_option_selection_loop int options prompt (map strip lines) out
  = let r := get_option_selection_loop int options prompt lines out in
    (r.1, strip_pending r.2).
Proof.
  revert out. induction lines as [|l lines IH]; intros out; [done|].
  cbn [map get_option_selection_loop]. rewrite strip_idemp.
  destruct (int (strip l)) as [j|]; [|apply IH].
  destruct (negb _); [apply IH | done].
Qed.

(** X8: when no pending line is accepted, every line is read and turned
    down with its message, and the call ends with the EOFError of the
    [input] that finds no line left; nothing is returned. *)
Theorem get_option_selection_end_of_input
    (options : list str) (prompt : str) (c : console) :
  Forall (fun line => ~ accepted int options line) (stdin c) ->
  get_option_selection int options prompt c
  = (Raise EOFError,
     mkConsole []
       (stdout c ++ rejections int prompt (stdin c) ++ [Prompted prompt])).
Proof.
  intros Hall. unfold get_option_selection.
  rewrite <- (app_nil_r (stdin c)) at 1.
  rewrite get_option_selection_loop_rejected by done.
  simpl. by rewrite <- app_assoc.
Qed.

(** X9: what the function returns is one of the options; it has read at
    least one line and only from the front of the pending input, and what
    was on standard output before is still there, in front. *)
Theorem get_option_selection_returns_an_option
    (options : list str) (prompt : str) (c c' : console) (label : str) :
  get_option_selection int options prompt c = (Ok label, c') ->
  label ∈ options
  /\ (exists pre line, stdin c = pre ++ line :: stdin c')
  /\ (exists shown, stdout c' = stdout c ++ shown).
Proof.
  unfold get_option_selection.
  destruct (get_option_selection_loop int options prompt (stdin c) (stdout c))
    as [[i|e] c1] eqn:Hloop; [|done].
  intros [= Hget <-].
  pose proof (get_option_selection_loop_in_range _ _ _ _ _ _ _ Hloop) as Hi.
  destruct (getitem_in_range options i Hi) as (x & Hlook & Hx).
  rewrite Hx in Hget. injection Hget as ->.
  apply get_option_selection_loop_consumes in Hloop
    as (pre & line & shown & Hin & Hout).
  split; [by eapply list_elem_of_lookup_2|]. split; eauto.
Qed.

(** X10: a line that parses to a negative integer is turned down with the
    out-of-range message and the next line is asked for, although Python's
    own indexing would take a negative index. *)
Theorem get_option_selection_negative_index
    (options : list str) (prompt : str)
    (line : str) (rest : list str) (out : list event) (i : Z) :
  int (strip line) = Some i -> i < 0 ->
  get_option_selection int options prompt (mkConsole (line :: rest) out)
  = get_option_selection int options prompt
      (mkConsole rest
         (out ++ [Prompted prompt; Printed out_of_range_message])).
Proof.
  intros Hint Hi. unfold get_option_selection.
  cbn [stdin stdout get_option_selection_loop]. rewrite Hint.
  destruct (Z.ltb_spec (-1) i); [lia|]. cbn [andb negb].
  by rewrite <- app_assoc.
Qed.

(** X11: whitespace around the lines typed does not count: with every
    pending line trimmed beforehand the outcome and the output are the
    same, and the lines left unread are the same ones, trimmed. *)
Theorem get_option_selection_trimmed_input
    (options : list str) (prompt : str) (c : console) :
  get_option_selection int options prompt (strip_pending c)
  = let r := get_option_selection int options prompt c in
    (r.1, strip_pending r.2).
Proof.
  unfold get_option_selection, strip_pending at 1. cbn [stdin stdout].
  rewrite get_option_selection_loop_strip. cbn zeta.
  by destruct (get_option_selection_loop int options prompt _ _) as [[]].
Qed.

End OptionSelectionFurther.

Lemma get_option_selection_end_of_input_witness :
  get_option_selection ascii_int [py "a"; py "b"] default_prompt
    (mkConsole [py "x"; py "2"] [])
  = (Raise EOFError,
     mkConsole []
       [Prompted default_prompt; Printed not_an_integer_message;
        Prompted default_prompt; Printed out_of_range_message;
        Prompted default_prompt]).
Proof.
  apply (get_option_selection_end_of_input ascii_int [py "a"; py "b"]
           default_prompt (mkConsole [py "x"; py "2"] [])).
  repeat constructor; intros (i & Hint & Hi); vm_compute in Hint;
    [discriminate | injection Hint as <-; simpl in Hi; lia].
Defined.

Lemma get_option_selection_returns_an_option_witness :
  py "b" ∈ [py "a"; py "b"]
  /\ (exists pre line, [py "7"; py "1"; py "0"] = pre ++ line :: [py "0"])
  /\ (exists shown,
        [Prompted default_prompt; Printed out_of_range_message;
         Prompted default_prompt] = [] ++ shown).
Proof.
  apply (get_option_selection_returns_an_option ascii_int [py "a"; py "b"]
           default_prompt (mkConsole [py "7"; py "1"; py "0"] [])
           (mkConsole [py "0"]
              [Prompted default_prompt; Printed out_of_range_message;
               Prompted default_prompt])).
  reflexivity.
Defined.

Lemma get_option_selection_negative_index_witness :
  get_option_selection ascii_int [py "a"; py "b"] default_prompt
    (mkConsole [py "-1"; py "0"] [])
  = get_option_selection ascii_int [py "a"; py "b"] default_prompt
      (mkConsole [py "0"]
         ([] ++ [Prompted default_prompt; Printed out_of_range_message])).
Proof.
  apply (get_option_selection_negative_index ascii_int [py "a"; py "b"]
           default_prompt (py "-1") [py "0"] [] (-1)).
  - reflexivity.
  - lia.
Defined.

(** ** display_command_options *)

Lemma getitem_middle {A} (pre post : list A) (x : A) :
  getitem (pre ++ x :: post) (Z.of_nat (length pre)) = Ok x.
Proof.
  destruct (getitem_in_range (pre ++ x :: post) (Z.of_nat (length pre)))
    as (y & Hlook & ->).
  { rewrite length_app. simpl. lia. }
  rewrite Nat2Z.id, list_lookup_middle in Hlook by done. congruence.
Qed.

Lemma display_command_options_loop_from options pre post c :
  options = pre ++ post ->
  display_command_options_loop options (seq (length pre) (length post)) c
  = (Ok (),
     mkConsole (stdin c)
       (stdout c
        ++ imap (fun j label => Printed (option_line (length pre + j) label))
             post)).
Proof.
  revert pre c. induction post as [|x post IH]; intros pre c ->.
  - destruct c. simpl. by rewrite app_nil_r.
  - cbn [length seq display_command_options_loop].
    rewrite getitem_middle.
    specialize (IH (pre ++ [x]) (print (option_line (length pre) x) c)).
    rewrite length_app in IH. cbn [length] in IH.
    replace (length pre + 1)%nat with (S (length pre)) in IH by lia.
    rewrite IH by by rewrite <- app_assoc.
    cbn [print stdin stdout imap]. f_equal. f_equal.
    rewrite <- app_assoc. cbn [app]. f_equal.
    rewrite Nat.add_0_r. f_equal.
    apply imap_ext. intros j y _. cbn. do 2 f_equal. lia.
Qed.

(** X12: display_command_options reads nothing, raises nothing and prints
    the title followed by one line per option, in order, the line of the
    option at index [i] being [i], a colon, a space and the option. *)
Theorem display_command_options_prints
    (options : list str) (title : str) (c : console) :
  display_command_options options title c
  = (Ok (),
     mkConsole (stdin c)
       (stdout c
        ++ Printed title
           :: imap (fun i label => Printed (option_line i label)) options)).
Proof.
  unfold display_command_options.
  rewrite (display_command_options_loop_from options [] options) by done.
  cbn [print stdin stdout length]. by rewrite <- app_assoc.
Qed.

Example display_command_options_example :
  display_command_options [py "add"; py "list"] default_title
    (mkConsole [py "1"] [])
  = (Ok (),
     mkConsole [py "1"]
       [Printed (py "Options:"); Printed (py "0: add");
        Printed (py "1: list")]).
Proof. vm_compute. reflexivity. Qed.

Section Menu.

Variable int : str -> option Z.

(** X13: the menu and the selection agree: after the options were
    displayed, typing the number shown in front of an option makes
    get_option_selection return that option, at the first prompt. *)
Theorem menu_number_selects_its_option
    (options : list str) (title prompt : str)
    (i : nat) (label : str) (rest : list str) (out : list event) :
  options !! i = Some label ->
  int (strip (str_of_nat i)) = Some (Z.of_nat i) ->
  exists c1,
    display_command_options options title
      (mkConsole (str_of_nat i :: rest) out) = (Ok (), c1)
    /\ Printed (option_line i label) ∈ stdout c1
    /\ get_option_selection int options prompt c1
       = (Ok label, mkConsole rest (stdout c1 ++ [Prompted prompt])).
Proof.
  intros Hlook Hint. eexists. split.
  { unfold display_command_options.
    rewrite (display_command_options_loop_from options [] options) by done.
    cbn [print stdin stdout length]. by rewrite <- app_assoc. }
  cbn [stdin stdout]. split.
  - apply elem_of_app. right. apply elem_of_cons. right.
    apply list_elem_of_lookup. exists i.
    by rewrite list_lookup_imap, Hlook.
  - destruct (get_option_selection_accepts int options prompt []
                (str_of_nat i) rest
                (out ++ Printed title
                     :: imap (fun i label => Printed (option_line i label))
                          options)
                (Z.of_nat i)) as (label' & Hlook' & Hcall).
    + constructor.
    + done.
    + apply lookup_lt_Some in Hlook. lia.
    + rewrite Nat2Z.id, Hlook in Hlook'. injection Hlook' as <-.
      cbn [app rejections flat_map] in Hcall. exact Hcall.
Qed.

End Menu.

Lemma menu_number_selects_its_option_witness :
  exists c1,
    display_command_options [py "add"; py "list"] default_title
      (mkConsole [py "1"; py "0"] []) = (Ok (), c1)
    /\ Printed (py "1: list") ∈ stdout c1
    /\ get_option_selection ascii_int [py "add"; py "list"] default_prompt c1
       = (Ok (py "list"),
          mkConsole [py "0"] (stdout c1 ++ [Prompted default_prompt])).
Proof.
  apply (menu_number_selects_its_option ascii_int [py "add"; py "list"]
           default_title default_prompt 1 (py "list") [py "0"] []).
  - reflexivity.
  - vm_compute. reflexivity.
Defined.

(** ** get_module_files, further *)

Lemma clean_stem_ends stem :
  clean_stem stem = true ->
  exists a b,
    head stem = Some a /\ last stem = Some b
    /\ char_in (py ".py") a = false /\ char_in (py ".py") b = false.
Proof.
  unfold clean_stem.
  destruct (head stem) as [a|]; [|done]. destruct (last stem) as [b|]; [|done].
  intros [Ha Hb]%andb_true_iff. exists a, b.
  by rewrite <- !negb_true_iff.
Qed.

(** X14: where the entries that do not start with [__] are all named
    [stem.py], with stems that neither start nor end with [.], [p] or [y],
    the function returns just these stems, in the order of the listing. *)
Theorem get_module_files_clean_stems
    (s : fs) (file : path) (names stems : list str) :
  os_listdir s (os_path_dirname (os_path_realpath s file)) = Ok names ->
  List.filter (fun x => negb (startswith x (py "__"))) names
  = map module_file stems ->
  Forall (fun stem => clean_stem stem = true) stems ->
  get_module_files s file = Ok stems.
Proof.
  intros Hls Hnames Hclean.
  rewrite (get_module_files_listing _ _ _ Hls), Hnames. f_equal.
  clear Hls Hnames. induction Hclean as [|stem stems Hstem _ IH]; [done|].
  cbn [map]. rewrite IH. f_equal.
  destruct (clean_stem_ends _ Hstem) as (a & b & Ha & Hb & ? & ?).
  by apply strip_chars_module_file with a b.
Qed.

Lemma get_module_files_clean_stems_witness :
  get_module_files example_fs (mkpath ["pkg"; "__init__.py"]%string)
  = Ok [py "foo"; py "bar"].
Proof.
  apply (get_module_files_clean_stems example_fs
           (mkpath ["pkg"; "__init__.py"]%string)
           [py "foo.py"; py "bar.py"; py "__init__.py"]).
  - vm_compute. reflexivity.
  - reflexivity.
  - repeat constructor.
Defined.

(** ** try_create_dir, further *)

Lemma os_mkdir_stat p s r s' q k :
  os_mkdir p s = (r, s') -> stat s q = inr k -> stat s' q = inr k.
Proof.
  destruct r as [[]|e]; [|by intros ->%os_mkdir_Raise].
  destruct p as [|name parent]; [done|]. cbn [os_mkdir].
  destruct (stat s parent) as [|[]]; [done| |done].
  destruct (entries s !! _) eqn:Hp; [done|].
  destruct (decide _); [done|]. intros [= <-]. by apply stat_insert.
Qed.

Lemma os_mkdir_entries p s r s' q k :
  os_mkdir p s = (r, s') -> entries s' !! q = Some k ->
  entries s !! q = Some k \/ (k = Dir /\ q = p).
Proof.
  destruct r as [[]|e]; [|intros ->%os_mkdir_Raise; by left].
  destruct p as [|name parent]; [done|]. cbn [os_mkdir].
  destruct (stat s parent) as [|[]]; [done| |done].
  destruct (entries s !! _) eqn:Hp; [done|].
  destruct (decide _); [done|]. intros [= <-]. cbn [entries].
  rewrite lookup_insert. destruct (decide (name :: parent = q)) as [<-|].
  - intros [= <-]. by right.
  - by left.
Qed.

(** Every run of [os.makedirs] is a run on the parent, or none, followed
    or not by the [mkdir] of the path. *)
Lemma os_makedirs_steps name head s r s' :
  os_makedirs (name :: head) s = (r, s') ->
  exists r1 s1,
    (s1 = s \/ os_makedirs head s = (r1, s1))
    /\ (s' = s1 \/ exists r2, os_mkdir (name :: head) s1 = (r2, s')).
Proof.
  cbn [os_makedirs]. destruct (os_path_exists s head).
  - intros H. exists r, s. split; [by left | right; by exists r].
  - destruct (os_makedirs head s) as [r1 s1] eqn:Hhead. intros H.
    exists r1, s1. split; [by right|].
    destruct r1 as [[]|e]; [right; by exists r|].
    destruct e as [| | |errno| | |]; try (injection H as _ <-; by left).
    destruct (errno =? EEXIST); [right; by exists r|].
    injection H as _ <-. by left.
Qed.

Lemma os_makedirs_stat p s r s' q k :
  os_makedirs p s = (r, s') -> stat s q = inr k -> stat s' q = inr k.
Proof.
  revert s r s'. induction p as [|name head IH]; intros s r s';
    [apply os_mkdir_stat|].
  intros (r1 & s1 & Hhead & Hmkdir)%os_makedirs_steps Hq.
  assert (stat s1 q = inr k) as Hq1.
  { destruct Hhead as [->|Hhead]; [done | by eapply IH]. }
  destruct Hmkdir as [->|[r2 Hmkdir]]; [done | by eapply os_mkdir_stat].
Qed.

Lemma os_makedirs_entries p s r s' q k :
  os_makedirs p s = (r, s') -> entries s' !! q = Some k ->
  entries s !! q = Some k \/ (k = Dir /\ q `suffix_of` p).
Proof.
  revert s r s'. induction p as [|name head IH]; intros s r s'.
  - intros Hmk Hq. destruct (os_mkdir_entries _ _ _ _ _ _ Hmk Hq) as [?|[? ->]];
      [by left | by right].
  - intros (r1 & s1 & Hhead & Hmkdir)%os_makedirs_steps Hq.
    assert (entries s1 !! q = Some k \/ (k = Dir /\ q `suffix_of` name :: head))
      as [Hq1|?]; [| |by right].
    { destruct Hmkdir as [->|[r2 Hmkdir]]; [by left|].
      destruct (os_mkdir_entries _ _ _ _ _ _ Hmkdir Hq) as [?|[? ->]];
        [by left | by right]. }
    destruct Hhead as [->|Hhead]; [by left|].
    destruct (IH _ _ _ Hhead Hq1) as [?|[? ?]]; [by left|].
    right. split; [done|]. by apply suffix_cons_r.
Qed.

Lemma try_create_dir_makedirs p s r s' :
  try_create_dir p s = (r, s') -> exists r0, os_makedirs p s = (r0, s').
Proof.
  unfold try_create_dir. destruct (os_makedirs p s) as [r0 s0].
  intros H. exists r0. f_equal.
  destruct r0 as [[]|e]; [by injection H|].
  destruct e as [| | |errno| | |]; try by injection H.
  destruct (negb _); by injection H.
Qed.

Lemma stat_ancestor s p q k :
  stat s p = inr k -> q `suffix_of` p -> q <> p -> stat s q = inr Dir.
Proof.
  revert k. induction p as [|name parent IH]; intros k Hp Hsuffix Hne.
  - apply suffix_nil_inv in Hsuffix. done.
  - destruct q as [|x q]; [done|].
    apply suffix_cons_inv in Hsuffix as [?|Hsuffix]; [done|].
    apply stat_parent in Hp as [Hparent _].
    destruct (decide (x :: q = parent)) as [<-|?]; [done|]. by eapply IH.
Qed.

(** X15: whatever its outcome, try_create_dir leaves what exists as it
    is: a path that led to a directory or a file before the call leads to
    the same afterwards, and the read-only directories are the same. *)
Theorem try_create_dir_keeps_what_exists
    (directory_path : path) (s s' : fs) (r : result unit) :
  try_create_dir directory_path s = (r, s') ->
  (forall q k, stat s q = inr k -> stat s' q = inr k)
  /\ readonly s' = readonly s.
Proof.
  intros [r0 Hmk]%try_create_dir_makedirs. split.
  - intros q k. by eapply os_makedirs_stat.
  - by apply os_makedirs_preserves in Hmk as [? _].
Qed.

(** X16: what try_create_dir adds to the file system are directories,
    and only at the path itself or above it. *)
Theorem try_create_dir_adds_directories_on_the_path
    (directory_path : path) (s s' : fs) (r : result unit) (q : path)
    (k : kind) :
  try_create_dir directory_path s = (r, s') ->
  entries s' !! q = Some k ->
  entries s !! q = Some k \/ (k = Dir /\ q `suffix_of` directory_path).
Proof.
  intros [r0 Hmk]%try_create_dir_makedirs. by eapply os_makedirs_entries.
Qed.


Lemma try_create_dir_keeps_what_exists_witness :
  let s' := (try_create_dir (mkpath ["a"; "b"; "c"]%string) example_fs).2 in
  stat s' (mkpath ["pkg"; "foo.py"]%string) = inr File.
Proof.
  apply (proj1 (try_create_dir_keeps_what_exists
                  (mkpath ["a"; "b"; "c"]%string) example_fs
                  (try_create_dir (mkpath ["a"; "b"; "c"]%string) example_fs).2
                  (Ok ()) ltac:(vm_compute; reflexivity))).
  vm_compute. reflexivity.
Defined.

Lemma try_create_dir_adds_directories_on_the_path_witness :
  entries example_fs !! mkpath ["a"; "b"]%string = Some Dir
  \/ (Dir = Dir
      /\ mkpath ["a"; "b"]%string `suffix_of` mkpath ["a"; "b"; "c"]%string).
Proof.
  apply (try_create_dir_adds_directories_on_the_path
           (mkpath ["a"; "b"; "c"]%string) example_fs
           (try_create_dir (mkpath ["a"; "b"; "c"]%string) example_fs).2
           (Ok ())).
  - vm_compute. reflexivity.
  - vm_compute. reflexivity.
Defined.


(** ** Further error and edge behaviour *)

Lemma get_module_files_member s file names name :
  os_listdir s (os_path_dirname (os_path_realpath s file)) = Ok names ->
  name ∈ names -> startswith name (py "__") = false ->
  exists modules,
    get_module_files s file = Ok modules
    /\ strip_chars name (py ".py") ∈ modules.
Proof.
  intros Hls Hin Hdunder. eexists.
  split; [by apply get_module_files_listing|].
  apply list_elem_of_In.
  apply (in_map (fun filename => strip_chars filename (py ".py"))).
  apply filter_In. split.
  - by apply list_elem_of_In.
  - by rewrite Hdunder.
Qed.

(** X18: the function keeps more than module files: an entry of the
    directory, file or directory, that does not start with [__] and neither
    starts nor ends with [.], [p] or [y] is returned under its whole name,
    whatever its extension. *)
Theorem get_module_files_keeps_other_names
    (s : fs) (file : path) (names : list str) (name : str) :
  os_listdir s (os_path_dirname (os_path_realpath s file)) = Ok names ->
  name ∈ names ->
  startswith name (py "__") = false ->
  (forall c, head name = Some c -> char_in (py ".py") c = false) ->
  (forall c, last name = Some c -> char_in (py ".py") c = false) ->
  exists modules, get_module_files s file = Ok modules /\ name ∈ modules.
Proof.
  intros Hls Hin Hdunder Hhead Hlast.
  destruct (get_module_files_member _ _ _ _ Hls Hin Hdunder)
    as (modules & Hcall & Hmember).
  exists modules. split; [done|].
  unfold strip_chars in Hmember. by rewrite strip_by_fixed in Hmember.
Qed.

Lemma get_module_files_keeps_other_names_witness :
  exists modules,
    get_module_files example_fs (mkpath ["pkg"]%string) = Ok modules
    /\ py "notes" ∈ modules.
Proof.
  apply (get_module_files_keeps_other_names example_fs
           (mkpath ["pkg"]%string) [py "notes"; py "pkg"] (py "notes")).
  - vm_compute. reflexivity.
  - compute_done.
  - reflexivity.
  - intros c [= <-]. reflexivity.
  - intros c [= <-]. reflexivity.
Defined.


Lemma os_makedirs_below_a_file p q s :
  stat s q = inr File -> q `suffix_of` p -> q <> p ->
  os_makedirs p s = (Raise (OSError ENOTDIR), s).
Proof.
  intros Hq. induction p as [|name head IH]; intros Hsuffix Hne.
  - apply suffix_nil_inv in Hsuffix. done.
  - assert (q `suffix_of` head) as Hhead.
    { destruct q as [|x q]; [apply suffix_nil|].
      by apply suffix_cons_inv in Hsuffix as [?|?]. }
    cbn [os_makedirs]. unfold os_path_exists.
    destruct (decide (q = head)) as [->|Hne'].
    + rewrite Hq. cbn [os_mkdir]. by rewrite Hq.
    + rewrite (IH Hhead Hne').
      destruct (stat s head) as [e|k] eqn:Hstat; [done|].
      by rewrite (stat_ancestor _ _ _ _ Hstat Hhead Hne') in Hq.
Qed.

(** X20: where a regular file stands above the path, try_create_dir ends
    with the OSError [ENOTDIR] of [os.makedirs] and nothing is made. *)
Theorem try_create_dir_below_a_file
    (directory_path q : path) (s : fs) :
  stat s q = inr File ->
  q `suffix_of` directory_path -> q <> directory_path ->
  try_create_dir directory_path s = (Raise (OSError ENOTDIR), s).
Proof.
  intros Hq Hsuffix Hne. unfold try_create_dir.
  by rewrite (os_makedirs_below_a_file _ _ _ Hq Hsuffix Hne).
Qed.

Lemma try_create_dir_below_a_file_witness :
  try_create_dir (mkpath ["notes"; "a"; "b"]%string) example_fs
  = (Raise (OSError ENOTDIR), example_fs).
Proof.
  apply (try_create_dir_below_a_file (mkpath ["notes"; "a"; "b"]%string)
           (mkpath ["notes"]%string) example_fs).
  - vm_compute. reflexivity.
  - by exists [py "b"; py "a"].
  - discriminate.
Defined.
